(** * Compass: bearing calculator, sector classifier and heading presenter

    Shallow embedding of the [Compass] component (the bus-direction widget).

    Numbers.  The component computes on JavaScript numbers.  They are
    idealised here as real numbers: [Math.sin], [Math.cos], [Math.PI] are the
    real sine, cosine and pi, [Math.atan2] is the two-argument arctangent,
    [Math.round] rounds to the nearest integer with ties toward plus
    infinity, and [%] is the remainder that truncates the quotient toward
    zero (the result takes the sign of the dividend).  Rounding error, NaN,
    infinities and the sign of zero are outside the model.

    Absent values.  [null] is [None].  Reading a property of [null] raises a
    [TypeError]; the embedding keeps that possibility visible through the
    [completion] type, so that "does not throw" is a statement to prove.
    An array read outside its bounds yields [undefined], again [None]. *)

From Stdlib Require Import Reals Lra Lia ZArith List Ascii String Bool.
From Stdlib Require Import Zfloor.
Import ListNotations.

Open Scope R_scope.

(** ** The numeric primitives of the host language *)

Module JSNum.

(** [Math.round x]: the integer nearest to [x], a tie going up. *)
Definition round (x : R) : Z := Zfloor (x + / 2).

(** The integer part of [x], rounding toward zero. *)
Definition trunc (x : R) : Z :=
  if Rle_dec 0 x then Zfloor x else Zceil x.

(** [a % d] on numbers. *)
Definition rem (a d : R) : R := a - IZR (trunc (a / d)) * d.

(** [Math.atan2 y x]. *)
Definition atan2 (y x : R) : R :=
  if Rlt_dec 0 x then atan (y / x)
  else if Rlt_dec x 0 then
    if Rle_dec 0 y then atan (y / x) + PI else atan (y / x) - PI
  else
    if Rlt_dec 0 y then PI / 2
    else if Rlt_dec y 0 then - (PI / 2)
    else 0.

(** [a === b] on numbers. *)
Definition strict_eq (a b : R) : bool :=
  if Req_dec_T a b then true else false.

End JSNum.

(** ** Abrupt completion *)

Inductive exn : Type := TypeError.

Inductive completion (A : Type) : Type :=
| Normal (a : A)
| Throw (e : exn).

Arguments Normal {A} a.
Arguments Throw {A} e.

Definition bind {A B : Type} (c : completion A) (k : A -> completion B)
  : completion B :=
  match c with
  | Normal a => k a
  | Throw e => Throw e
  end.

Notation "x <- c ;; k" := (bind c (fun x => k))
  (at level 61, c at next level, right associativity).

(** ** Data *)

Record GeoPoint : Type := mkGeoPoint { lat : R; lng : R }.

(** Truthiness of a value of type [{lat, lng} | null]: an object is truthy,
    [null] is falsy. *)
Definition truthy (p : option GeoPoint) : bool :=
  match p with Some _ => true | None => false end.

(** [p.lat] and [p.lng] on a value that may be [null]. *)
Definition get_lat (p : option GeoPoint) : completion R :=
  match p with Some g => Normal (lat g) | None => Throw TypeError end.

Definition get_lng (p : option GeoPoint) : completion R :=
  match p with Some g => Normal (lng g) | None => Throw TypeError end.

(** [arr[i]] for an integer-valued number [i]. *)
Definition array_get {A : Type} (arr : list A) (i : Z) : option A :=
  if (i <? 0)%Z then None else nth_error arr (Z.to_nat i).

(** ** calculateBearing *)

(** The guard [!start || !end || (start.lat === end.lat && start.lng === end.lng)],
    with the short-circuit evaluation of [||] and [&&]. *)
Definition sameOrInvalid (start end_ : option GeoPoint) : completion bool :=
  if negb (truthy start) then Normal true
  else if negb (truthy end_) then Normal true
  else
    slat <- get_lat start ;;
    elat <- get_lat end_ ;;
    if JSNum.strict_eq slat elat then
      slng <- get_lng start ;;
      elng <- get_lng end_ ;;
      Normal (JSNum.strict_eq slng elng)
    else Normal false.

Definition calculateBearing (start end_ : option GeoPoint) : completion R :=
  degenerate <- sameOrInvalid start end_ ;;
  if degenerate then Normal 0
  else
    slat <- get_lat start ;;
    let startLat := (slat * PI) / 180 in
    slng <- get_lng start ;;
    let startLng := (slng * PI) / 180 in
    elat <- get_lat end_ ;;
    let endLat := (elat * PI) / 180 in
    elng <- get_lng end_ ;;
    let endLng := (elng * PI) / 180 in
    let dLng := endLng - startLng in
    let y := sin dLng * cos endLat in
    let x := cos startLat * sin endLat
             - sin startLat * cos endLat * cos dLng in
    let bearing := JSNum.atan2 y x * (180 / PI) in
    let bearing := JSNum.rem (bearing + 360) 360 in
    Normal bearing.

(** The value computed past the guard (the body of [calculateBearing] after
    its early return), as a function of two present points. *)
Definition azimuth (s e : GeoPoint) : R :=
  let startLat := (lat s * PI) / 180 in
  let startLng := (lng s * PI) / 180 in
  let endLat := (lat e * PI) / 180 in
  let endLng := (lng e * PI) / 180 in
  let dLng := endLng - startLng in
  let y := sin dLng * cos endLat in
  let x := cos startLat * sin endLat
           - sin startLat * cos endLat * cos dLng in
  JSNum.rem (JSNum.atan2 y x * (180 / PI) + 360) 360.

(** ** bearingToDirection *)

Definition directions : list string :=
  ["N"; "NE"; "E"; "SE"; "S"; "SW"; "W"; "NW"]%string.

(** The constant [index] of the source. *)
Definition directionIndex (bearing : R) : Z :=
  Z.rem (JSNum.round (bearing / 45)) 8.

Definition bearingToDirection (bearing : R) : option string :=
  let index := directionIndex bearing in
  array_get directions index.

(** ** The component state and its effect *)

(** The two [useState] cells.  [direction] holds whatever
    [bearingToDirection] returned, which can be [undefined]. *)
Record CompassState : Type := mkCompassState {
  direction : option string;
  degrees : R
}.

Definition initialState : CompassState :=
  {| direction := Some "N"%string; degrees := 0 |}.

Definition setDegrees (d : R) (st : CompassState) : CompassState :=
  {| direction := direction st; degrees := d |}.

Definition setDirection (l : option string) (st : CompassState) : CompassState :=
  {| direction := l; degrees := degrees st |}.

Record CompassProps : Type := mkCompassProps {
  busLocation : option GeoPoint;
  previousLocation : option GeoPoint
}.

(** The body of the [useEffect] callback, run on the state [st]: the two
    setter calls of one run are applied together. *)
Definition compassEffect (props : CompassProps) (st : CompassState)
  : completion CompassState :=
  if truthy (busLocation props) && truthy (previousLocation props) then
    bearing <- calculateBearing (previousLocation props) (busLocation props) ;;
    Normal (setDirection (bearingToDirection bearing) (setDegrees bearing st))
  else Normal st.

(** The states published by a sequence of runs of the effect, one per
    update of the props, oldest first. *)
Fixpoint runEffects (st : CompassState) (updates : list CompassProps)
  : completion (list CompassState) :=
  match updates with
  | [] => Normal []
  | props :: rest =>
      st' <- compassEffect props st ;;
      trace <- runEffects st' rest ;;
      Normal (st' :: trace)
  end.

Inductive reachable : CompassState -> Prop :=
| reach_init : reachable initialState
| reach_step (st st' : CompassState) (props : CompassProps) :
    reachable st ->
    compassEffect props st = Normal st' ->
    reachable st'.

(** ** The specification's own formulations

    These follow the wording of the specification, not the source, and are
    what the source functions are compared with. *)

Module Spec.

(** Degrees to radians and back. *)
Definition toRadians (d : R) : R := d * (PI / 180).
Definition toDegrees (r : R) : R := r * 180 / PI.

(** The mathematical modulo, with the quotient rounded down. *)
Definition modulo (a m : R) : R := a - m * IZR (Zfloor (a / m)).

(** The forward azimuth from [start] to [end_], steps 1 to 5 of the
    Bearing Calculator. *)
Definition bearing (start end_ : GeoPoint) : R :=
  let lat1 := toRadians (lat start) in
  let lat2 := toRadians (lat end_) in
  let dlng := toRadians (lng end_) - toRadians (lng start) in
  let y := sin dlng * cos lat2 in
  let x := cos lat1 * sin lat2 - sin lat1 * cos lat2 * cos dlng in
  let theta := toDegrees (JSNum.atan2 y x) in
  modulo (theta + 360) 360.

(** [index = round(bearing / 45) mod 8; return directions[index]]. *)
Definition classify (bearing : R) : option string :=
  nth_error directions (Z.to_nat (Z.modulo (JSNum.round (bearing / 45)) 8)).

(** The sector of the [k]-th label: 45 degrees wide and centred on
    [45 * k]; the sector of N wraps around 360. *)
Definition sector (k : Z) (b : R) : Prop :=
  if (k =? 0)%Z then 0 <= b < 22.5 \/ 337.5 <= b < 360
  else 45 * IZR k - 22.5 <= b < 45 * IZR k + 22.5.

End Spec.

(** The label field is the sector assignment of the degrees field. *)
Definition consistent (st : CompassState) : Prop :=
  direction st = bearingToDirection (degrees st).

(** The state that an update on the fix pair [(previous, current)] has to
    publish, given the bearing [d]. *)
Definition published (d : R) : CompassState :=
  {| direction := bearingToDirection d; degrees := d |}.

(** The props of an update in which both fixes are present, from the pair
    [(previous, current)]. *)
Definition bothPresent (fixes : GeoPoint * GeoPoint) : CompassProps :=
  {| busLocation := Some (snd fixes); previousLocation := Some (fst fixes) |}.

(** An update in which a fix is missing. *)
Definition fixMissing (props : CompassProps) : Prop :=
  busLocation props = None \/ previousLocation props = None.

(** The fixtures of the known fixed points. *)
Definition origin : GeoPoint := {| lat := 0; lng := 0 |}.
Definition oneDegreeEast : GeoPoint := {| lat := 0; lng := 1 |}.
Definition oneDegreeNorth : GeoPoint := {| lat := 1; lng := 0 |}.

(** The reading of the classifier's precondition under which it is
    necessary: in range the index is one of 0..7 and the label defined,
    and every negative bearing has a negative index and no label. *)
Definition precondition_necessary : Prop :=
  (forall b, 0 <= b < 360 ->
     (0 <= directionIndex b < 8)%Z /\
     exists l, In l directions /\ bearingToDirection b = Some l) /\
  (forall b, b < 0 ->
     (directionIndex b < 0)%Z /\ bearingToDirection b = None).

(** ** What the component renders

    The needle is rotated by [degrees]; the text under it shows
    [direction] and the whole number [Math.round(degrees)]. *)

Definition shownDegrees (st : CompassState) : Z :=
  JSNum.round (degrees st).

(** The state after a sequence of runs of the effect: the last state
    published, or the starting one if there was no run. *)
Definition stateAfter (st : CompassState) (trace : list CompassState)
  : CompassState :=
  last trace st.

(** ** Reflections of the inputs, used to state symmetries *)

(** The point with the same latitude on the other side of the prime
    meridian. *)
Definition mirrorLng (p : GeoPoint) : GeoPoint :=
  {| lat := lat p; lng := - lng p |}.

(** The bearing reflected in the north-south axis: 0 stays, any other [b]
    goes to [360 - b]. *)
Definition mirrorBearing (b : R) : R :=
  if Req_dec_T b 0 then 0 else 360 - b.

(** ** The Hero component: banner rotation and title layout

    Strings are modelled as [string]; [split], [slice] and [join] act on
    them as the host language's do on a title without astral characters.
    The index state is an integer-valued number, modelled in [Z]. *)

Module Hero.

(** The updater handed to [setCurrentImageIndex] by the interval callback:
    [(p) => (p + 1) % homepageData.bannerImages.length]. *)
Definition nextImageIndex (bannerImages : list string) (p : Z) : Z :=
  Z.rem (p + 1) (Z.of_nat (List.length bannerImages)).

(** The guard of the rotation effect:
    [homepageData.autoRotate && homepageData.bannerImages.length > 1]. *)
Definition rotates (autoRotate : bool) (bannerImages : list string) : bool :=
  autoRotate && (1 <? Z.of_nat (List.length bannerImages))%Z.

(** The index after [ticks] firings of the interval, when the effect has
    installed it; without an interval the index does not move. *)
Definition indexAfter (autoRotate : bool) (bannerImages : list string)
           (ticks : nat) (p : Z) : Z :=
  if rotates autoRotate bannerImages
  then Nat.iter ticks (nextImageIndex bannerImages) p
  else p.

(** [s || fallback] on strings: the empty string is falsy. *)
Definition orElse (s fallback : string) : string :=
  match s with EmptyString => fallback | _ => s end.

(** The constant [currentBanner]; [None] is [undefined]. *)
Definition currentBanner (bannerImages : list string) (currentImageIndex : Z)
           (logoUrl : string) : option string :=
  if (List.length bannerImages =? 0)%nat
  then Some (orElse logoUrl "/placeholder.svg")
  else array_get bannerImages currentImageIndex.

(** [s.split(" ")]. *)
Fixpoint split_space (s : string) : list string :=
  match s with
  | EmptyString => [EmptyString]
  | String c rest =>
      if Ascii.eqb c " "%char then EmptyString :: split_space rest
      else match split_space rest with
           | w :: ws => String c w :: ws
           | [] => [String c EmptyString]
           end
  end.

(** [words.join(" ")]. *)
Definition join_space (words : list string) : string :=
  String.concat " " words.

(** The two spans of the headline:
    [heroTitle.split(" ").slice(0, 2).join(" ")] and
    [heroTitle.split(" ").slice(2).join(" ")]. *)
Definition titleLead (heroTitle : string) : string :=
  join_space (firstn 2 (split_space heroTitle)).

Definition titleRest (heroTitle : string) : string :=
  join_space (skipn 2 (split_space heroTitle)).

End Hero.

(** ** The component scope as effects

    A function declared inside [Compass] closes over the state cells of
    the current render and over their setters: it can read [direction]
    and [degrees], and it can call [setDegrees] and [setDirection], each
    call queueing an update.  [Eff] makes both visible: a computation is
    run on the state snapshot of the render and returns its completion
    together with the setter calls it made, in order.  In this reading a
    function is free of side effects when it makes no call, and its result
    is a function of its arguments when it is the same on every snapshot. *)

Inductive SetterCall : Type :=
| CallSetDegrees (d : R)
| CallSetDirection (l : option string).

Definition Eff (A : Type) : Type :=
  CompassState -> completion A * list SetterCall.

Definition eff_ret {A : Type} (a : A) : Eff A :=
  fun _ => (Normal a, []).

Definition eff_throw {A : Type} (e : exn) : Eff A :=
  fun _ => (Throw e, []).

Definition eff_bind {A B : Type} (m : Eff A) (k : A -> Eff B) : Eff B :=
  fun snapshot =>
    match m snapshot with
    | (Normal a, calls) =>
        let (r, calls') := k a snapshot in (r, calls ++ calls')
    | (Throw e, calls) => (Throw e, calls)
    end.

Notation "x <~ c ;; k" := (eff_bind c (fun x => k))
  (at level 61, c at next level, right associativity).

(** Reading the state cells of the render. *)
Definition eff_state : Eff CompassState :=
  fun snapshot => (Normal snapshot, []).

(** Calling a setter. *)
Definition eff_call (c : SetterCall) : Eff unit :=
  fun _ => (Normal tt, [c]).

(** [p.lat] and [p.lng] on a value that may be [null]. *)
Definition eff_lat (p : option GeoPoint) : Eff R :=
  match p with Some g => eff_ret (lat g) | None => eff_throw TypeError end.

Definition eff_lng (p : option GeoPoint) : Eff R :=
  match p with Some g => eff_ret (lng g) | None => eff_throw TypeError end.

(** The guard of [calculateBearing], in the component scope. *)
Definition sameOrInvalidE (start end_ : option GeoPoint) : Eff bool :=
  if negb (truthy start) then eff_ret true
  else if negb (truthy end_) then eff_ret true
  else
    slat <~ eff_lat start ;;
    elat <~ eff_lat end_ ;;
    if JSNum.strict_eq slat elat then
      slng <~ eff_lng start ;;
      elng <~ eff_lng end_ ;;
      eff_ret (JSNum.strict_eq slng elng)
    else eff_ret false.

(** [calculateBearing], in the component scope: the same statements as
    above, run where the state cells and the setters are within reach. *)
Definition calculateBearingE (start end_ : option GeoPoint) : Eff R :=
  degenerate <~ sameOrInvalidE start end_ ;;
  if degenerate then eff_ret 0
  else
    slat <~ eff_lat start ;;
    let startLat := (slat * PI) / 180 in
    slng <~ eff_lng start ;;
    let startLng := (slng * PI) / 180 in
    elat <~ eff_lat end_ ;;
    let endLat := (elat * PI) / 180 in
    elng <~ eff_lng end_ ;;
    let endLng := (elng * PI) / 180 in
    let dLng := endLng - startLng in
    let y := sin dLng * cos endLat in
    let x := cos startLat * sin endLat
             - sin startLat * cos endLat * cos dLng in
    let bearing := JSNum.atan2 y x * (180 / PI) in
    let bearing := JSNum.rem (bearing + 360) 360 in
    eff_ret bearing.

(** The [useEffect] callback, in the component scope: its two setter
    calls are the effects. *)
Definition compassEffectE (props : CompassProps) : Eff unit :=
  if truthy (busLocation props) && truthy (previousLocation props) then
    bearing <~ calculateBearingE (previousLocation props) (busLocation props) ;;
    _ <~ eff_call (CallSetDegrees bearing) ;;
    eff_call (CallSetDirection (bearingToDirection bearing))
  else eff_ret tt.

(** The text under the needle, read from the state cells: [direction] and
    [Math.round(degrees)]. *)
Definition shownText : Eff (option string * Z) :=
  st <~ eff_state ;;
  eff_ret (direction st, JSNum.round (degrees st)).

(** What the queued calls do to the state once they are applied. *)
Definition applyCall (st : CompassState) (c : SetterCall) : CompassState :=
  match c with
  | CallSetDegrees d => setDegrees d st
  | CallSetDirection l => setDirection l st
  end.

Definition applyCalls (calls : list SetterCall) (st : CompassState)
  : CompassState :=
  fold_left applyCall calls st.

(** ** Valid fixes

    The range the producer of the fixes keeps to; the component does not
    check it. *)
Definition validGeoPoint (p : GeoPoint) : Prop :=
  - 90 <= lat p <= 90 /\ - 180 <= lng p <= 180.

(** One millionth of a degree, about a tenth of a metre on the ground:
    the separation from which two coordinates are told apart with a wide
    margin once converted to radians. *)
Definition resolution : R := 1e-6.

(** * Properties of the numeric primitives *)

Section NumericPrimitives.

Import JSNum.

Lemma round_eq (x : R) (k : Z) :
  IZR k - / 2 <= x < IZR k + / 2 -> round x = k.
Proof.
  intros [Hlo Hhi]. unfold round. apply Zfloor_eq. lra.
Qed.

Lemma round_bound (x : R) : IZR (round x) - / 2 <= x < IZR (round x) + / 2.
Proof.
  unfold round. pose proof (Zfloor_bound (x + / 2)). lra.
Qed.

Lemma round_IZR (k : Z) : round (IZR k) = k.
Proof. apply round_eq. lra. Qed.

Lemma round_le (x y : R) : x <= y -> (round x <= round y)%Z.
Proof. intros H. unfold round. apply Zfloor_le. lra. Qed.

Lemma trunc_nonneg (x : R) : 0 <= x -> trunc x = Zfloor x.
Proof.
  intros H. unfold trunc. destruct (Rle_dec 0 x); [reflexivity | contradiction].
Qed.

Lemma trunc_neg (x : R) : x < 0 -> trunc x = Zceil x.
Proof.
  intros H. unfold trunc. destruct (Rle_dec 0 x); [lra | reflexivity].
Qed.

Lemma trunc_IZR (k : Z) : trunc (IZR k) = k.
Proof.
  unfold trunc. destruct (Rle_dec 0 (IZR k)).
  - apply ZfloorZ.
  - unfold Zceil. rewrite ZfloorNZ. lia.
Qed.

(** Dividing through by a positive divisor. *)
Lemma Rdiv_between (a d lo hi : R) :
  0 < d -> lo * d <= a < hi * d -> lo <= a / d < hi.
Proof.
  intros Hd [Hlo Hhi]. unfold Rdiv.
  assert (Hi : 0 < / d) by (apply Rinv_0_lt_compat; exact Hd).
  assert (E : forall t, t * d * / d = t) by (intros t; field; lra).
  split.
  - rewrite <- (E lo). apply Rmult_le_compat_r; lra.
  - rewrite <- (E hi). apply Rmult_lt_compat_r; lra.
Qed.

(** The remainder, once the quotient is known. *)
Lemma rem_eq (a d : R) (k : Z) :
  0 < d -> 0 <= a -> IZR k * d <= a < (IZR k + 1) * d ->
  rem a d = a - IZR k * d.
Proof.
  intros Hd Ha Hk. unfold rem.
  assert (Hq : IZR k <= a / d < IZR k + 1) by (apply Rdiv_between; assumption).
  assert (H0 : 0 <= a / d).
  { apply (Rdiv_between a d 0 (a / d + 1) Hd). split; [lra|].
    replace ((a / d + 1) * d) with (a + d) by (field; lra). lra. }
  rewrite trunc_nonneg by exact H0.
  rewrite (Zfloor_eq k) by exact Hq. reflexivity.
Qed.

(** On a dividend that is not negative the remainder lies in [[0, d)]. *)
Lemma rem_range (a d : R) : 0 < d -> 0 <= a -> 0 <= rem a d < d.
Proof.
  intros Hd Ha. unfold rem.
  assert (H0 : 0 <= a / d).
  { apply (Rdiv_between a d 0 (a / d + 1) Hd). split; [lra|].
    replace ((a / d + 1) * d) with (a + d) by (field; lra). lra. }
  rewrite trunc_nonneg by exact H0.
  pose proof (Zfloor_bound (a / d)) as [Hlo Hhi].
  assert (E : a = a / d * d) by (field; lra).
  split.
  - assert (IZR (Zfloor (a / d)) * d <= a / d * d)
      by (apply Rmult_le_compat_r; lra).
    lra.
  - assert (a / d * d < (IZR (Zfloor (a / d)) + 1) * d)
      by (apply Rmult_lt_compat_r; lra).
    lra.
Qed.

(** On a dividend that is not negative, [%] is the mathematical modulo. *)
Lemma rem_floor (a d : R) :
  0 < d -> 0 <= a -> rem a d = a - IZR (Zfloor (a / d)) * d.
Proof.
  intros Hd Ha. unfold rem.
  assert (H0 : 0 <= a / d).
  { apply (Rdiv_between a d 0 (a / d + 1) Hd). split; [lra|].
    replace ((a / d + 1) * d) with (a + d) by (field; lra). lra. }
  rewrite trunc_nonneg by exact H0. reflexivity.
Qed.

(** On integer-valued numbers [%] is the truncating remainder of [Z]; this
    is what lets [directionIndex] compute on integers. *)
Lemma rem_IZR (a b : Z) :
  (0 < b)%Z -> rem (IZR a) (IZR b) = IZR (Z.rem a b).
Proof.
  intros Hb.
  assert (HbR : 0 < IZR b) by (apply IZR_lt; exact Hb).
  pose proof (Z.quot_rem' a b) as Hqr.
  assert (HqrR : IZR a = IZR (Z.quot a b) * IZR b + IZR (Z.rem a b)).
  { rewrite <- mult_IZR, <- plus_IZR. f_equal. lia. }
  assert (Hx : IZR a / IZR b = IZR (Z.quot a b) + IZR (Z.rem a b) / IZR b).
  { rewrite HqrR at 1. field. lra. }
  assert (Ht : trunc (IZR a / IZR b) = Z.quot a b).
  { destruct (Z_lt_le_dec a 0) as [Hneg | Hpos].
    - pose proof (Z.rem_bound_pos_neg a b Hb (Z.lt_le_incl _ _ Hneg)) as [Hlo Hhi].
      apply IZR_lt in Hlo. apply IZR_le in Hhi. rewrite opp_IZR in Hlo.
      assert (Hr : -1 < IZR (Z.rem a b) / IZR b <= 0).
      { split.
        - apply (Rmult_lt_reg_r (IZR b)); [exact HbR|].
          replace (IZR (Z.rem a b) / IZR b * IZR b) with (IZR (Z.rem a b))
            by (field; lra). lra.
        - apply (Rmult_le_reg_r (IZR b)); [exact HbR|].
          replace (IZR (Z.rem a b) / IZR b * IZR b) with (IZR (Z.rem a b))
            by (field; lra). lra. }
      destruct (Req_dec (IZR (Z.rem a b)) 0) as [Hz | Hnz].
      + rewrite Hx, Hz. unfold Rdiv. rewrite Rmult_0_l, Rplus_0_r.
        apply trunc_IZR.
      + assert (Hlt : IZR a / IZR b < 0).
        { apply (Rmult_lt_reg_r (IZR b)); [exact HbR|].
          replace (IZR a / IZR b * IZR b) with (IZR a) by (field; lra).
          rewrite Rmult_0_l. apply IZR_lt. exact Hneg. }
        rewrite trunc_neg by exact Hlt.
        apply Zceil_eq. lra.
    - pose proof (Z.rem_bound_pos a b Hpos Hb) as [Hlo Hhi].
      apply IZR_le in Hlo. apply IZR_lt in Hhi.
      assert (Hr : 0 <= IZR (Z.rem a b) / IZR b < 1).
      { apply Rdiv_between; [exact HbR|]. lra. }
      assert (Hq0 : (0 <= Z.quot a b)%Z) by (apply Z.quot_pos; lia).
      apply IZR_le in Hq0.
      rewrite trunc_nonneg by lra.
      apply Zfloor_eq. lra. }
  unfold rem. rewrite Ht. lra.
Qed.

(** [Math.atan2] returns an angle in [(-PI, PI]]. *)
Lemma atan2_bound (y x : R) : - PI < atan2 y x <= PI.
Proof.
  pose proof PI_RGT_0 as Hpi.
  pose proof (atan_bound (y / x)) as Hat.
  unfold atan2.
  destruct (Rlt_dec 0 x) as [Hx | Hx]; [lra|].
  destruct (Rlt_dec x 0) as [Hx' | Hx'].
  - assert (Hix : / x < 0) by (apply Rinv_lt_0_compat; exact Hx').
    destruct (Rle_dec 0 y) as [Hy | Hy].
    + assert (y / x <= 0) by (unfold Rdiv; nra).
      assert (atan (y / x) <= 0).
      { destruct (Req_dec (y / x) 0) as [E | E].
        - rewrite E, atan_0. lra.
        - rewrite <- atan_0. left. apply atan_increasing. lra. }
      lra.
    + assert (0 < y / x) by (unfold Rdiv; nra).
      assert (0 < atan (y / x)) by (rewrite <- atan_0; apply atan_increasing; lra).
      lra.
  - destruct (Rlt_dec 0 y); [lra|].
    destruct (Rlt_dec y 0); lra.
Qed.

Lemma hypot_scale (x y : R) :
  x <> 0 -> sqrt (x * x + y * y) = Rabs x * sqrt (1 + (y / x)²).
Proof.
  intros Hx.
  replace (x * x + y * y) with (x² * (1 + (y / x)²))
    by (unfold Rsqr; field; exact Hx).
  rewrite sqrt_mult_alt by apply Rle_0_sqr.
  rewrite sqrt_Rsqr_abs. reflexivity.
Qed.

Lemma sqrt_one_plus_sqr_pos (t : R) : 0 < sqrt (1 + t²).
Proof.
  apply sqrt_lt_R0. pose proof (Rle_0_sqr t). lra.
Qed.

(** [Math.atan2 y x] is the polar angle of the point [(x, y)]. *)
Lemma atan2_polar (y x : R) :
  x = sqrt (x * x + y * y) * cos (atan2 y x) /\
  y = sqrt (x * x + y * y) * sin (atan2 y x).
Proof.
  unfold atan2.
  destruct (Rlt_dec 0 x) as [Hx | Hx].
  - pose proof (sqrt_one_plus_sqr_pos (y / x)) as Hs.
    rewrite hypot_scale by lra. rewrite Rabs_pos_eq by lra.
    rewrite cos_atan, sin_atan. split; field; lra.
  - destruct (Rlt_dec x 0) as [Hx' | Hx'].
    + pose proof (sqrt_one_plus_sqr_pos (y / x)) as Hs.
      rewrite hypot_scale by lra. rewrite Rabs_left by lra.
      destruct (Rle_dec 0 y) as [Hy | Hy].
      * rewrite neg_cos, neg_sin, cos_atan, sin_atan. split; field; lra.
      * unfold Rminus. rewrite cos_plus, sin_plus, cos_neg, sin_neg.
        rewrite cos_PI, sin_PI, cos_atan, sin_atan. split; field; lra.
    + assert (E : x = 0) by lra. subst x.
      replace (0 * 0 + y * y) with (y²) by (unfold Rsqr; ring).
      rewrite sqrt_Rsqr_abs.
      destruct (Rlt_dec 0 y) as [Hy | Hy].
      * rewrite cos_PI2, sin_PI2, Rabs_pos_eq by lra. lra.
      * destruct (Rlt_dec y 0) as [Hy' | Hy'].
        -- rewrite cos_neg, sin_neg, cos_PI2, sin_PI2, Rabs_left by lra. lra.
        -- assert (E : y = 0) by lra. subst y. rewrite Rabs_R0. lra.
Qed.

End NumericPrimitives.

(** * The bearing calculator *)

Section BearingCalculator.

Import JSNum.

Lemma strict_eq_true (a b : R) : strict_eq a b = true <-> a = b.
Proof.
  unfold strict_eq. destruct (Req_dec_T a b); split; intros; congruence.
Qed.

Lemma strict_eq_false (a b : R) : strict_eq a b = false <-> a <> b.
Proof.
  unfold strict_eq. destruct (Req_dec_T a b); split; intros; congruence.
Qed.

Lemma sameOrInvalid_Some (s e : GeoPoint) :
  sameOrInvalid (Some s) (Some e)
  = Normal (strict_eq (lat s) (lat e) && strict_eq (lng s) (lng e)).
Proof.
  unfold sameOrInvalid; simpl.
  destruct (strict_eq (lat s) (lat e)); reflexivity.
Qed.

Lemma calculateBearing_None_l (end_ : option GeoPoint) :
  calculateBearing None end_ = Normal 0.
Proof. reflexivity. Qed.

Lemma calculateBearing_None_r (start : option GeoPoint) :
  calculateBearing start None = Normal 0.
Proof. destruct start; reflexivity. Qed.

Lemma calculateBearing_same (s e : GeoPoint) :
  lat s = lat e -> lng s = lng e ->
  calculateBearing (Some s) (Some e) = Normal 0.
Proof.
  intros Hlat Hlng. unfold calculateBearing.
  rewrite sameOrInvalid_Some.
  apply strict_eq_true in Hlat, Hlng. rewrite Hlat, Hlng. reflexivity.
Qed.

Lemma calculateBearing_distinct (s e : GeoPoint) :
  ~ (lat s = lat e /\ lng s = lng e) ->
  calculateBearing (Some s) (Some e) = Normal (azimuth s e).
Proof.
  intros Hne. unfold calculateBearing.
  rewrite sameOrInvalid_Some.
  assert (Hg : strict_eq (lat s) (lat e) && strict_eq (lng s) (lng e) = false).
  { apply andb_false_iff.
    destruct (Req_dec (lat s) (lat e)) as [E1 | E1].
    - right. apply strict_eq_false. intros E2. apply Hne. split; assumption.
    - left. apply strict_eq_false. exact E1. }
  rewrite Hg. reflexivity.
Qed.

(** The angle handed to the normalisation lies in [(180, 540]]. *)
Lemma degrees_of_atan2 (y x : R) :
  - 180 < atan2 y x * (180 / PI) <= 180.
Proof.
  pose proof PI_RGT_0 as Hpi.
  pose proof (atan2_bound y x) as [Hlo Hhi].
  assert (Hk : 0 < 180 / PI) by (apply Rdiv_lt_0_compat; lra).
  set (k := 180 / PI) in *.
  assert (E : PI * k = 180) by (unfold k; field; lra).
  assert (H1 : atan2 y x * k <= PI * k) by (apply Rmult_le_compat_r; lra).
  assert (H2 : - PI * k < atan2 y x * k) by (apply Rmult_lt_compat_r; lra).
  lra.
Qed.

Lemma azimuth_range (s e : GeoPoint) : 0 <= azimuth s e < 360.
Proof.
  unfold azimuth. cbv zeta.
  match goal with |- context [atan2 ?y ?x] =>
    pose proof (degrees_of_atan2 y x) as Hd end.
  apply rem_range; lra.
Qed.

Lemma azimuth_spec (s e : GeoPoint) : azimuth s e = Spec.bearing s e.
Proof.
  pose proof PI_RGT_0 as Hpi.
  unfold azimuth, Spec.bearing, Spec.toRadians, Spec.toDegrees, Spec.modulo.
  cbv zeta.
  replace (lat s * PI / 180) with (lat s * (PI / 180)) by (field; lra).
  replace (lat e * PI / 180) with (lat e * (PI / 180)) by (field; lra).
  replace (lng s * PI / 180) with (lng s * (PI / 180)) by (field; lra).
  replace (lng e * PI / 180) with (lng e * (PI / 180)) by (field; lra).
  match goal with |- context [atan2 ?y ?x] =>
    set (t := atan2 y x); pose proof (degrees_of_atan2 y x) as Hd; fold t in Hd
  end.
  replace (t * 180 / PI) with (t * (180 / PI)) by (field; lra).
  rewrite rem_floor by lra. ring.
Qed.

(** In every case the calculator returns normally. *)
Lemma calculateBearing_cases (start end_ : option GeoPoint) :
  calculateBearing start end_ = Normal 0 \/
  exists s e, start = Some s /\ end_ = Some e /\
              ~ (lat s = lat e /\ lng s = lng e) /\
              calculateBearing start end_ = Normal (azimuth s e).
Proof.
  destruct start as [s|]; [|left; apply calculateBearing_None_l].
  destruct end_ as [e|]; [|left; apply calculateBearing_None_r].
  destruct (Req_dec (lat s) (lat e)) as [E1 | E1].
  - destruct (Req_dec (lng s) (lng e)) as [E2 | E2].
    + left. apply calculateBearing_same; assumption.
    + right. exists s, e. repeat split; try reflexivity.
      * intros [_ H]. contradiction.
      * apply calculateBearing_distinct. intros [_ H]. contradiction.
  - right. exists s, e. repeat split; try reflexivity.
    + intros [H _]. contradiction.
    + apply calculateBearing_distinct. intros [H _]. contradiction.
Qed.

Lemma calculateBearing_range (start end_ : option GeoPoint) :
  exists b, calculateBearing start end_ = Normal b /\ 0 <= b < 360.
Proof.
  destruct (calculateBearing_cases start end_) as [H | (s & e & _ & _ & _ & H)].
  - exists 0. split; [exact H | lra].
  - exists (azimuth s e). split; [exact H | apply azimuth_range].
Qed.

(** Normalisation adds a full turn to a negative angle and leaves the
    others alone. *)
Lemma normalise_cases (d : R) :
  - 180 < d <= 180 ->
  (d < 0 /\ rem (d + 360) 360 = d + 360) \/
  (0 <= d /\ rem (d + 360) 360 = d).
Proof.
  intros Hd. destruct (Rlt_dec d 0) as [Hneg | Hpos].
  - left. split; [exact Hneg|].
    rewrite (rem_eq _ _ 0%Z) by lra. lra.
  - right. split; [lra|].
    rewrite (rem_eq _ _ 1%Z) by lra. lra.
Qed.

(** The returned bearing, read as an angle, points from the origin to
    [(x, y)]: it is the direction of the forward-azimuth vector. *)
Lemma azimuth_polar (s e : GeoPoint) :
  let startLat := (lat s * PI) / 180 in
  let endLat := (lat e * PI) / 180 in
  let dLng := (lng e * PI) / 180 - (lng s * PI) / 180 in
  let y := sin dLng * cos endLat in
  let x := cos startLat * sin endLat - sin startLat * cos endLat * cos dLng in
  x = sqrt (x * x + y * y) * cos (azimuth s e * PI / 180) /\
  y = sqrt (x * x + y * y) * sin (azimuth s e * PI / 180).
Proof.
  intros startLat endLat dLng y x.
  pose proof PI_RGT_0 as Hpi.
  unfold azimuth. cbv zeta. fold startLat endLat dLng y x.
  pose proof (degrees_of_atan2 y x) as Hd.
  pose proof (atan2_polar y x) as [Hx Hy].
  destruct (normalise_cases _ Hd) as [[_ E] | [_ E]]; rewrite E.
  - replace ((atan2 y x * (180 / PI) + 360) * PI / 180)
      with (atan2 y x + 2 * PI) by (field; lra).
    rewrite cos_plus, sin_plus, cos_2PI, sin_2PI.
    rewrite !Rmult_1_r, !Rmult_0_r, Rminus_0_r, Rplus_0_r. split; assumption.
  - replace (atan2 y x * (180 / PI) * PI / 180)
      with (atan2 y x) by (field; lra).
    split; assumption.
Qed.

End BearingCalculator.

(** * The sector classifier *)

(** Solves [bearingToDirection b = Some l] at a concrete bearing [b], given
    the value [k] of [Math.round (b / 45)]. *)
Ltac classify_at k :=
  unfold bearingToDirection, directionIndex;
  rewrite (round_eq _ k) by lra;
  reflexivity.

Section SectorClassifier.

Import JSNum.

Lemma round_quotient (b : R) (k : Z) :
  round (b / 45) = k <-> 45 * IZR k - 22.5 <= b < 45 * IZR k + 22.5.
Proof.
  split.
  - intros <-. pose proof (round_bound (b / 45)). lra.
  - intros H. apply round_eq. lra.
Qed.

Lemma round_quotient_range (b : R) :
  0 <= b < 360 -> (0 <= round (b / 45) <= 8)%Z.
Proof.
  intros Hb. pose proof (round_bound (b / 45)) as Hr.
  split.
  - apply Z.lt_pred_le. apply lt_IZR. simpl. lra.
  - apply Z.lt_succ_r. apply lt_IZR. simpl. lra.
Qed.

Lemma directionIndex_range (b : R) :
  0 <= b < 360 -> (0 <= directionIndex b < 8)%Z.
Proof.
  intros Hb. unfold directionIndex.
  apply Z.rem_bound_pos; [apply round_quotient_range; exact Hb | lia].
Qed.

(** The index is the rounded quotient itself, except that 8 wraps to 0. *)
Lemma directionIndex_eq (b : R) (k : Z) :
  0 <= b < 360 -> (0 <= k < 8)%Z ->
  directionIndex b = k <->
  round (b / 45) = k \/ (round (b / 45) = 8%Z /\ k = 0%Z).
Proof.
  intros Hb Hk. pose proof (round_quotient_range b Hb) as Hr.
  unfold directionIndex.
  destruct (Z.eq_dec (round (b / 45)) 8) as [E | E].
  - rewrite E. change (Z.rem 8 8) with 0%Z. lia.
  - rewrite Z.rem_small by lia. lia.
Qed.

Lemma directionIndex_sector (b : R) (k : Z) :
  0 <= b < 360 -> (0 <= k < 8)%Z ->
  directionIndex b = k <-> Spec.sector k b.
Proof.
  intros Hb Hk. rewrite directionIndex_eq by assumption.
  rewrite !round_quotient. unfold Spec.sector.
  destruct (Z.eqb_spec k 0) as [-> | Hk0].
  - split.
    + intros [H | [H _]]; [left | right]; lra.
    + intros [H | H]; [left | right; split; [|reflexivity]]; lra.
  - assert (H1 : 1 <= IZR k) by (apply IZR_le; lia).
    assert (H7 : IZR k <= 7) by (apply IZR_le; lia).
    split; [intros [H | [_ H]]; [exact H | contradiction] | intros H; left; exact H].
Qed.

Lemma array_get_directions (k : Z) :
  (0 <= k < 8)%Z ->
  exists l, array_get directions k = Some l /\ In l directions.
Proof.
  intros Hk.
  assert (Hc : (k = 0 \/ k = 1 \/ k = 2 \/ k = 3 \/
                k = 4 \/ k = 5 \/ k = 6 \/ k = 7)%Z) by lia.
  repeat (destruct Hc as [-> | Hc]); [ .. | subst k];
    (eexists; split; [reflexivity | simpl; tauto]).
Qed.

Lemma array_get_directions_None (k : Z) :
  array_get directions k = None <-> (k < 0 \/ 8 <= k)%Z.
Proof.
  unfold array_get. destruct (Z.ltb_spec k 0) as [Hn | Hn].
  - split; [intros _; left; exact Hn | reflexivity].
  - rewrite nth_error_None. change (List.length directions) with 8%nat. lia.
Qed.

Lemma directions_NoDup : NoDup directions.
Proof.
  unfold directions.
  repeat (constructor; [simpl; intuition discriminate|]).
  constructor.
Qed.

Lemma array_get_directions_inj (i j : Z) :
  (0 <= i < 8)%Z -> (0 <= j < 8)%Z ->
  array_get directions i = array_get directions j -> i = j.
Proof.
  intros Hi Hj. unfold array_get.
  destruct (Z.ltb_spec i 0); [lia|]. destruct (Z.ltb_spec j 0); [lia|].
  intros E.
  assert (Hlen : (Z.to_nat i < List.length directions)%nat)
    by (change (List.length directions) with 8%nat; lia).
  pose proof (proj1 (NoDup_nth_error directions) directions_NoDup
                _ _ Hlen E).
  lia.
Qed.

(** Where the rounded quotient is not negative, the source's [%] and
    bounds-checked read agree with the specification's [mod] and lookup. *)
Lemma bearingToDirection_classify (b : R) :
  - 22.5 <= b -> bearingToDirection b = Spec.classify b.
Proof.
  intros Hb.
  assert (Hr : (0 <= round (b / 45))%Z).
  { pose proof (round_bound (b / 45)) as Hq.
    apply Z.lt_pred_le. apply lt_IZR. simpl. lra. }
  unfold bearingToDirection, Spec.classify, directionIndex, array_get.
  rewrite Z.rem_mod_nonneg by lia.
  pose proof (Z.mod_pos_bound (round (b / 45)) 8 ltac:(lia)) as Hm.
  destruct (Z.ltb_spec (round (b / 45) mod 8) 0); [lia | reflexivity].
Qed.

(** The index is never 8 or more, so the lookup fails exactly on a
    negative index. *)
Lemma bearingToDirection_None (b : R) :
  bearingToDirection b = None <-> (directionIndex b < 0)%Z.
Proof.
  unfold bearingToDirection. cbv zeta. rewrite array_get_directions_None.
  pose proof (Z.rem_bound_abs (round (b / 45)) 8 ltac:(lia)) as Habs.
  fold (directionIndex b) in Habs. lia.
Qed.

Lemma directionIndex_negative (b : R) :
  (directionIndex b < 0)%Z -> b < - 22.5.
Proof.
  intros Hneg. destruct (Rlt_dec b (- 22.5)) as [Hlt | Hge]; [exact Hlt|].
  exfalso.
  assert (Hr : (0 <= round (b / 45))%Z).
  { pose proof (round_bound (b / 45)) as Hq.
    apply Z.lt_pred_le. apply lt_IZR. simpl. lra. }
  pose proof (Z.rem_nonneg (round (b / 45)) 8 ltac:(lia) Hr) as Hnn.
  fold (directionIndex b) in Hnn. lia.
Qed.

Lemma directionIndex_below_north (b : R) :
  - 337.5 <= b < - 22.5 -> (- 8 < directionIndex b < 0)%Z.
Proof.
  intros Hb. pose proof (round_bound (b / 45)) as Hq.
  assert (Hlo : (- 8 < round (b / 45))%Z) by (apply lt_IZR; lra).
  assert (Hhi : (round (b / 45) < 0)%Z) by (apply lt_IZR; lra).
  unfold directionIndex.
  replace (round (b / 45)) with (- (- round (b / 45)))%Z by lia.
  rewrite Z.rem_opp_l by lia. rewrite Z.rem_small by lia. lia.
Qed.

End SectorClassifier.

(** * The heading presenter *)

Section HeadingPresenter.

Lemma published_consistent (d : R) : consistent (published d).
Proof. reflexivity. Qed.

Lemma initialState_consistent : consistent initialState.
Proof.
  unfold consistent, initialState, bearingToDirection, directionIndex; simpl.
  rewrite (round_eq _ 0) by lra. reflexivity.
Qed.

Lemma compassEffect_bothPresent (fixes : GeoPoint * GeoPoint) (st : CompassState) :
  compassEffect (bothPresent fixes) st
  = (d <- calculateBearing (Some (fst fixes)) (Some (snd fixes)) ;;
     Normal (published d)).
Proof. reflexivity. Qed.

Lemma compassEffect_fixMissing (props : CompassProps) (st : CompassState) :
  fixMissing props -> compassEffect props st = Normal st.
Proof.
  unfold fixMissing, compassEffect. intros [H | H]; rewrite H.
  - reflexivity.
  - cbn [truthy]. rewrite andb_false_r. reflexivity.
Qed.

(** One run of the effect either leaves the state alone or publishes the
    pair computed from a bearing in range. *)
Lemma compassEffect_cases (props : CompassProps) (st : CompassState) :
  compassEffect props st = Normal st \/
  exists d, 0 <= d < 360 /\ compassEffect props st = Normal (published d).
Proof.
  destruct props as [[cur|] [prev|]];
    try (left; apply compassEffect_fixMissing; unfold fixMissing; simpl; tauto).
  right.
  destruct (calculateBearing_range (Some prev) (Some cur)) as (d & Hd & Hr).
  exists d. split; [exact Hr|].
  unfold compassEffect; simpl. rewrite Hd. reflexivity.
Qed.

Lemma bearingToDirection_defined (b : R) :
  0 <= b < 360 ->
  exists l, In l directions /\ bearingToDirection b = Some l.
Proof.
  intros Hb.
  destruct (array_get_directions _ (directionIndex_range b Hb)) as (l & Hl & Hin).
  exists l. split; assumption.
Qed.

(** The invariant carried by every reachable state. *)
Lemma reachable_invariant (st : CompassState) :
  reachable st ->
  consistent st /\ 0 <= degrees st < 360 /\
  exists l, In l directions /\ direction st = Some l.
Proof.
  induction 1 as [| st st' props Hreach IH Hstep].
  - split; [apply initialState_consistent|].
    split; [simpl; lra|].
    exists "N"%string. split; [simpl; tauto | reflexivity].
  - destruct (compassEffect_cases props st) as [Hsame | (d & Hr & Hpub)].
    + rewrite Hsame in Hstep. injection Hstep as <-. exact IH.
    + rewrite Hpub in Hstep. injection Hstep as <-.
      split; [apply published_consistent|].
      split; [exact Hr|].
      apply bearingToDirection_defined. exact Hr.
Qed.

(** A run of updates that all carry both fixes publishes one state per
    update, each computed from that update's own pair. *)
Lemma runEffects_bothPresent (fixes : list (GeoPoint * GeoPoint)) (st : CompassState) :
  exists trace,
    runEffects st (map bothPresent fixes) = Normal trace /\
    Forall2 (fun f st' =>
               exists d, calculateBearing (Some (fst f)) (Some (snd f)) = Normal d
                         /\ st' = published d)
            fixes trace.
Proof.
  revert st. induction fixes as [| f rest IH]; intros st.
  - exists []. split; [reflexivity | constructor].
  - destruct (calculateBearing_range (Some (fst f)) (Some (snd f)))
      as (d & Hd & _).
    destruct (IH (published d)) as (trace & Hrun & Hall).
    exists (published d :: trace). split.
    + simpl. rewrite compassEffect_bothPresent, Hd. simpl.
      rewrite Hrun. reflexivity.
    + constructor; [exists d; split; [exact Hd | reflexivity] | exact Hall].
Qed.

(** A run of updates that all miss a fix repeats the state it started
    from. *)
Lemma runEffects_fixMissing (updates : list CompassProps) (st : CompassState) :
  Forall fixMissing updates ->
  runEffects st updates = Normal (repeat st (List.length updates)).
Proof.
  induction 1 as [| props rest Hmiss _ IH].
  - reflexivity.
  - simpl. rewrite (compassEffect_fixMissing _ _ Hmiss). simpl.
    rewrite IH. reflexivity.
Qed.

End HeadingPresenter.

(** * Known fixed points *)

Section FixedPoints.

Import JSNum.

Lemma sin_one_degree_pos : 0 < sin (PI / 180).
Proof.
  pose proof PI_RGT_0. apply sin_gt_0; lra.
Qed.

Lemma atan2_pos_zero (y : R) : 0 < y -> atan2 y 0 = PI / 2.
Proof.
  intros Hy. unfold atan2.
  destruct (Rlt_dec 0 0); [lra|]. destruct (Rlt_dec 0 0); [lra|].
  destruct (Rlt_dec 0 y); [reflexivity | lra].
Qed.

Lemma atan2_zero_pos (x : R) : 0 < x -> atan2 0 x = 0.
Proof.
  intros Hx. unfold atan2.
  destruct (Rlt_dec 0 x); [|lra].
  unfold Rdiv. rewrite Rmult_0_l. apply atan_0.
Qed.

Lemma azimuth_due_east : azimuth origin oneDegreeEast = 90.
Proof.
  pose proof PI_RGT_0 as Hpi.
  unfold azimuth, origin, oneDegreeEast; cbn [lat lng].
  replace (0 * PI / 180) with 0 by lra.
  replace (1 * PI / 180 - 0) with (PI / 180) by lra.
  rewrite sin_0, cos_0.
  match goal with |- context [atan2 ?y ?x] =>
    replace x with 0 by ring; replace y with (sin (PI / 180)) by ring
  end.
  rewrite atan2_pos_zero by apply sin_one_degree_pos.
  replace (PI / 2 * (180 / PI) + 360) with 450 by (field; lra).
  rewrite (rem_eq _ _ 1%Z) by lra. lra.
Qed.

Lemma azimuth_due_north : azimuth origin oneDegreeNorth = 0.
Proof.
  pose proof PI_RGT_0 as Hpi.
  unfold azimuth, origin, oneDegreeNorth; cbn [lat lng].
  replace (0 * PI / 180) with 0 by lra.
  replace (1 * PI / 180) with (PI / 180) by lra.
  replace (0 - 0) with 0 by ring.
  rewrite sin_0, cos_0.
  match goal with |- context [atan2 ?y ?x] =>
    replace x with (sin (PI / 180)) by ring; replace y with 0 by ring
  end.
  rewrite atan2_zero_pos by apply sin_one_degree_pos.
  rewrite Rmult_0_l, Rplus_0_l.
  rewrite (rem_eq _ _ 1%Z) by lra. lra.
Qed.

Lemma calculateBearing_due_east :
  calculateBearing (Some origin) (Some oneDegreeEast) = Normal 90.
Proof.
  rewrite calculateBearing_distinct by (simpl; intros [_ H]; lra).
  f_equal. apply azimuth_due_east.
Qed.

Lemma calculateBearing_due_north :
  calculateBearing (Some origin) (Some oneDegreeNorth) = Normal 0.
Proof.
  rewrite calculateBearing_distinct by (simpl; intros [H _]; lra).
  f_equal. apply azimuth_due_north.
Qed.

(** The state published by the first update on the due-east fixture. *)
Lemma reachable_due_east :
  reachable {| direction := Some "E"%string; degrees := 90 |}.
Proof.
  apply (reach_step initialState _ (bothPresent (origin, oneDegreeEast)));
    [apply reach_init|].
  rewrite compassEffect_bothPresent. simpl.
  rewrite calculateBearing_due_east. simpl.
  unfold published. f_equal. f_equal. classify_at 2%Z.
Qed.

(** The first update on the due-east fixture publishes E at 90. *)
Lemma compassEffect_due_east :
  compassEffect (bothPresent (origin, oneDegreeEast)) initialState
  = Normal {| direction := Some "E"%string; degrees := 90 |}.
Proof.
  rewrite compassEffect_bothPresent. simpl.
  rewrite calculateBearing_due_east. simpl.
  unfold published. f_equal. f_equal. classify_at 2%Z.
Qed.

End FixedPoints.

(** * The component scope *)

Section ComponentScope.

(** In the component scope the calculator computes what it computes on
    its own, makes no setter call and does not look at the state. *)
Lemma calculateBearingE_pure (start end_ : option GeoPoint)
      (snapshot : CompassState) :
  calculateBearingE start end_ snapshot = (calculateBearing start end_, []).
Proof.
  destruct start as [s|]; [|reflexivity].
  destruct end_ as [e|]; [|reflexivity].
  unfold calculateBearingE, calculateBearing, sameOrInvalidE, sameOrInvalid,
    eff_bind, bind; simpl.
  destruct (JSNum.strict_eq (lat s) (lat e)); simpl; [|reflexivity].
  destruct (JSNum.strict_eq (lng s) (lng e)); reflexivity.
Qed.

(** The effect, by contrast, does make calls: with both fixes present it
    calls [setDegrees] and then [setDirection], and nothing else; applying
    the calls gives the state of [compassEffect]. *)
Lemma compassEffectE_calls (fixes : GeoPoint * GeoPoint) (st : CompassState) :
  exists d,
    calculateBearing (Some (fst fixes)) (Some (snd fixes)) = Normal d /\
    compassEffectE (bothPresent fixes) st
    = (Normal tt,
       [CallSetDegrees d; CallSetDirection (bearingToDirection d)]).
Proof.
  destruct (calculateBearing_range (Some (fst fixes)) (Some (snd fixes)))
    as (d & Hd & _).
  exists d. split; [exact Hd|].
  unfold compassEffectE, bothPresent; cbn [busLocation previousLocation truthy andb].
  unfold eff_bind. rewrite calculateBearingE_pure, Hd. reflexivity.
Qed.

Lemma compassEffectE_refines (props : CompassProps) (st : CompassState) :
  exists calls,
    compassEffectE props st = (Normal tt, calls) /\
    compassEffect props st = Normal (applyCalls calls st).
Proof.
  destruct props as [[cur|] [prev|]];
    try (exists []; split; reflexivity).
  destruct (compassEffectE_calls (prev, cur) st) as (d & Hd & Hcalls).
  eexists. split; [exact Hcalls|].
  change {| busLocation := Some cur; previousLocation := Some prev |}
    with (bothPresent (prev, cur)).
  rewrite compassEffect_bothPresent. simpl in Hd |- *. rewrite Hd. reflexivity.
Qed.

(** The text shown is read from the state cells and changes none. *)
Lemma shownText_reads (st : CompassState) :
  shownText st = (Normal (direction st, shownDegrees st), []).
Proof. reflexivity. Qed.

End ComponentScope.

(** * The claims *)

(** C1.  For two present points that are not numerically identical, the
    calculator returns the forward azimuth as the specification words it:
    both points converted from degrees to radians, [dLng] the difference of
    the longitudes, [y = sin dLng * cos end.lat],
    [x = cos start.lat * sin end.lat - sin start.lat * cos end.lat * cos dLng],
    [atan2 y x] converted to degrees, and the result normalised with
    [(theta + 360) mod 360]. *)
Theorem C1_forward_azimuth (s e : GeoPoint) :
  ~ (lat s = lat e /\ lng s = lng e) ->
  calculateBearing (Some s) (Some e) = Normal (Spec.bearing s e).
Proof.
  intros Hne. rewrite calculateBearing_distinct by exact Hne.
  f_equal. apply azimuth_spec.
Qed.

Lemma C1_forward_azimuth_witness :
  ~ (lat origin = lat oneDegreeEast /\ lng origin = lng oneDegreeEast) /\
  calculateBearing (Some origin) (Some oneDegreeEast)
  = Normal (Spec.bearing origin oneDegreeEast).
Proof.
  assert (H : ~ (lat origin = lat oneDegreeEast /\
                 lng origin = lng oneDegreeEast))
    by (simpl; intros [_ H]; lra).
  split; [exact H | apply (C1_forward_azimuth origin oneDegreeEast H)].
Defined.

(** C2.  Whatever the two inputs (absent, identical or distinct), the
    calculator returns a value in the half-open interval [[0, 360)]. *)
Theorem C2_bearing_in_range (start end_ : option GeoPoint) :
  exists b, calculateBearing start end_ = Normal b /\ 0 <= b < 360.
Proof. apply calculateBearing_range. Qed.

(** C3.  When either input is absent, or both are present and numerically
    identical, the calculator returns exactly 0 and does not throw; and 0
    classifies to N. *)
Theorem C3_degenerate_is_zero (start end_ : option GeoPoint) :
  start = None \/ end_ = None \/
  (exists s e, start = Some s /\ end_ = Some e /\
               lat s = lat e /\ lng s = lng e) ->
  calculateBearing start end_ = Normal 0 /\
  bearingToDirection 0 = Some "N"%string.
Proof.
  intros H. split.
  - destruct H as [-> | [-> | (s & e & -> & -> & Hlat & Hlng)]].
    + apply calculateBearing_None_l.
    + apply calculateBearing_None_r.
    + apply calculateBearing_same; assumption.
  - classify_at 0%Z.
Qed.

Lemma C3_degenerate_is_zero_witness :
  (calculateBearing None (Some origin) = Normal 0 /\
   bearingToDirection 0 = Some "N"%string) /\
  (calculateBearing (Some origin) None = Normal 0 /\
   bearingToDirection 0 = Some "N"%string) /\
  (calculateBearing (Some oneDegreeEast) (Some oneDegreeEast) = Normal 0 /\
   bearingToDirection 0 = Some "N"%string).
Proof.
  split; [|split].
  - apply (C3_degenerate_is_zero None (Some origin)). left. reflexivity.
  - apply (C3_degenerate_is_zero (Some origin) None). right. left. reflexivity.
  - apply (C3_degenerate_is_zero (Some oneDegreeEast) (Some oneDegreeEast)).
    right. right. exists oneDegreeEast, oneDegreeEast.
    repeat split; reflexivity.
Defined.

(** C4.  For a bearing in [[0, 360)] the classifier returns
    [directions[round(bearing / 45) mod 8]], which is one of the eight
    labels; the label is the [k]-th one exactly when the bearing lies in the
    [k]-th sector, the sectors being 45 degrees wide, and the bearing lies
    in one sector and no other. *)
Theorem C4_classifier_partition (b : R) :
  0 <= b < 360 ->
  bearingToDirection b = Spec.classify b /\
  (exists l, In l directions /\ bearingToDirection b = Some l) /\
  (forall k, (0 <= k < 8)%Z ->
     bearingToDirection b = array_get directions k <-> Spec.sector k b) /\
  (exists k, (0 <= k < 8)%Z /\ Spec.sector k b /\
     forall k', (0 <= k' < 8)%Z -> Spec.sector k' b -> k' = k).
Proof.
  intros Hb. pose proof (directionIndex_range b Hb) as Hi.
  split; [apply bearingToDirection_classify; lra|].
  split; [apply bearingToDirection_defined; exact Hb|].
  split.
  - intros k Hk. rewrite <- directionIndex_sector by assumption.
    unfold bearingToDirection. split.
    + apply array_get_directions_inj; assumption.
    + intros ->. reflexivity.
  - exists (directionIndex b). split; [exact Hi|]. split.
    + apply directionIndex_sector; [exact Hb | exact Hi | reflexivity].
    + intros k' Hk' Hs. symmetry.
      apply directionIndex_sector; assumption.
Qed.

Lemma C4_classifier_partition_witness :
  0 <= 100 < 360 /\
  bearingToDirection 100 = Spec.classify 100 /\
  (exists l, In l directions /\ bearingToDirection 100 = Some l) /\
  (forall k, (0 <= k < 8)%Z ->
     bearingToDirection 100 = array_get directions k <-> Spec.sector k 100) /\
  (exists k, (0 <= k < 8)%Z /\ Spec.sector k 100 /\
     forall k', (0 <= k' < 8)%Z -> Spec.sector k' 100 -> k' = k).
Proof.
  assert (H : 0 <= 100 < 360) by lra.
  split; [exact H | apply (C4_classifier_partition 100 H)].
Defined.

(** C5.  An update with both fixes present publishes the state whose
    degrees are the bearing from the previous to the current fix and whose
    label is the classification of those degrees; every reachable state,
    the initial one included, has as label the sector assignment of its
    degrees, and that label is one of the eight; and a run of N updates
    with both fixes present publishes N states, the i-th computed from the
    i-th pair. *)
Theorem C5_presenter_consistent :
  (forall (st : CompassState) (prev cur : GeoPoint),
     exists d, calculateBearing (Some prev) (Some cur) = Normal d /\
               compassEffect (bothPresent (prev, cur)) st
               = Normal {| direction := bearingToDirection d; degrees := d |}) /\
  (forall st, reachable st ->
     direction st = bearingToDirection (degrees st) /\
     exists l, In l directions /\ direction st = Some l) /\
  (forall (st : CompassState) (fixes : list (GeoPoint * GeoPoint)),
     exists trace,
       runEffects st (map bothPresent fixes) = Normal trace /\
       List.length trace = List.length fixes /\
       Forall2 (fun f st' =>
                  exists d,
                    calculateBearing (Some (fst f)) (Some (snd f)) = Normal d /\
                    st' = {| direction := bearingToDirection d; degrees := d |})
               fixes trace).
Proof.
  split; [|split].
  - intros st prev cur.
    destruct (calculateBearing_range (Some prev) (Some cur)) as (d & Hd & _).
    exists d. split; [exact Hd|].
    rewrite compassEffect_bothPresent. simpl. rewrite Hd. reflexivity.
  - intros st Hreach.
    destruct (reachable_invariant st Hreach) as (Hc & _ & Hl).
    split; assumption.
  - intros st fixes.
    destruct (runEffects_bothPresent fixes st) as (trace & Hrun & Hall).
    exists trace. split; [exact Hrun|]. split; [|exact Hall].
    symmetry. apply (Forall2_length Hall).
Qed.

Lemma C5_presenter_consistent_witness :
  reachable {| direction := Some "E"%string; degrees := 90 |} /\
  Some "E"%string = bearingToDirection 90 /\
  exists l, In l directions /\ Some "E"%string = Some l.
Proof.
  split; [apply reachable_due_east|].
  apply (proj1 (proj2 C5_presenter_consistent)
           {| direction := Some "E"%string; degrees := 90 |}
           reachable_due_east).
Defined.

(** C6.  At the sector boundaries 22.5, 67.5, ..., 337.5 the tie goes up,
    to the label that is next clockwise; and the bearing 360, were it
    supplied, classifies to N. *)
Theorem C6_boundaries_round_up :
  bearingToDirection 22.5 = Some "NE"%string /\
  bearingToDirection 67.5 = Some "E"%string /\
  bearingToDirection 112.5 = Some "SE"%string /\
  bearingToDirection 157.5 = Some "S"%string /\
  bearingToDirection 202.5 = Some "SW"%string /\
  bearingToDirection 247.5 = Some "W"%string /\
  bearingToDirection 292.5 = Some "NW"%string /\
  bearingToDirection 337.5 = Some "N"%string /\
  bearingToDirection 360 = Some "N"%string.
Proof.
  repeat split.
  - classify_at 1%Z.
  - classify_at 2%Z.
  - classify_at 3%Z.
  - classify_at 4%Z.
  - classify_at 5%Z.
  - classify_at 6%Z.
  - classify_at 7%Z.
  - classify_at 8%Z.
  - classify_at 8%Z.
Qed.

(** C7.  When a fix is missing the effect recomputes nothing and leaves
    the state as it was: the last published state, or the initial one if
    nothing was published; over a run of such updates the state stays the
    same throughout. *)
Theorem C7_missing_fix_keeps_state :
  (forall (props : CompassProps) (st : CompassState),
     busLocation props = None \/ previousLocation props = None ->
     compassEffect props st = Normal st) /\
  (forall (updates : list CompassProps) (st : CompassState),
     Forall (fun props => busLocation props = None \/
                          previousLocation props = None) updates ->
     runEffects st updates = Normal (repeat st (List.length updates))).
Proof.
  split.
  - intros props st H. apply compassEffect_fixMissing. exact H.
  - intros updates st H. apply runEffects_fixMissing. exact H.
Qed.

Lemma C7_missing_fix_keeps_state_witness :
  compassEffect {| busLocation := Some oneDegreeEast; previousLocation := None |}
                {| direction := Some "E"%string; degrees := 90 |}
  = Normal {| direction := Some "E"%string; degrees := 90 |} /\
  runEffects {| direction := Some "E"%string; degrees := 90 |}
             [ {| busLocation := None; previousLocation := Some origin |};
               {| busLocation := None; previousLocation := None |} ]
  = Normal [ {| direction := Some "E"%string; degrees := 90 |};
             {| direction := Some "E"%string; degrees := 90 |} ].
Proof.
  split.
  - apply (proj1 C7_missing_fix_keeps_state). right. reflexivity.
  - apply (proj2 C7_missing_fix_keeps_state
             [ {| busLocation := None; previousLocation := Some origin |};
               {| busLocation := None; previousLocation := None |} ]).
    repeat constructor.
Defined.

(** C8.  The known fixed points: from (0, 0) to (0, 1), due east along the
    equator, the bearing is 90 and classifies to E; from (0, 0) to (1, 0),
    due north, the bearing is 0 and classifies to N. *)
Theorem C8_known_fixed_points :
  calculateBearing (Some origin) (Some oneDegreeEast) = Normal 90 /\
  bearingToDirection 90 = Some "E"%string /\
  calculateBearing (Some origin) (Some oneDegreeNorth) = Normal 0 /\
  bearingToDirection 0 = Some "N"%string.
Proof.
  repeat split.
  - apply calculateBearing_due_east.
  - classify_at 2%Z.
  - apply calculateBearing_due_north.
  - classify_at 0%Z.
Qed.

(** C9.  The calculator is total, pure and deterministic.  Run in the
    component scope, where it could read the state cells, call the
    setters or throw, it does none of these: on every pair of inputs,
    absent ones included, there is one number that it returns normally
    on every state snapshot, and it makes no setter call. *)
Theorem C9_calculator_pure_total (start end_ : option GeoPoint) :
  exists b : R,
    forall snapshot : CompassState,
      calculateBearingE start end_ snapshot = (Normal b, []).
Proof.
  destruct (calculateBearing_range start end_) as (b & Hb & _).
  exists b. intros snapshot.
  rewrite calculateBearingE_pure, Hb. reflexivity.
Qed.

(** C10, as stated, fails at the bearing -10: it is negative, its index is
    0 and the label N is returned. *)
Lemma C10_counterexample :
  (- 10 < 0 /\ directionIndex (- 10) = 0%Z /\
   bearingToDirection (- 10) = Some "N"%string) /\
  ~ precondition_necessary.
Proof.
  assert (Hi : directionIndex (- 10) = 0%Z).
  { unfold directionIndex. rewrite (round_eq _ 0) by lra. reflexivity. }
  split.
  - split; [lra|]. split; [exact Hi|]. classify_at 0%Z.
  - intros [_ Hneg]. destruct (Hneg (- 10)) as [Hlt _]; [lra|].
    rewrite Hi in Hlt. lia.
Qed.

(** C10, amended.  For a bearing in [[0, 360)] the index is one of 0..7 and
    the lookup yields one of the eight labels.  The lookup is undefined
    exactly when the index is negative; that happens only below -22.5 and
    does happen on all of [[-337.5, -22.5)], while a bearing in
    [[-22.5, 0)] has index 0 and the label N. *)
Theorem C10_index_in_bounds :
  (forall b, 0 <= b < 360 ->
     (0 <= directionIndex b < 8)%Z /\
     exists l, In l directions /\ bearingToDirection b = Some l) /\
  (forall b, bearingToDirection b = None <-> (directionIndex b < 0)%Z) /\
  (forall b, (directionIndex b < 0)%Z -> b < - 22.5) /\
  (forall b, - 337.5 <= b < - 22.5 ->
     (directionIndex b < 0)%Z /\ bearingToDirection b = None) /\
  (forall b, - 22.5 <= b < 0 ->
     directionIndex b = 0%Z /\ bearingToDirection b = Some "N"%string).
Proof.
  split; [|split; [|split; [|split]]].
  - intros b Hb. split.
    + apply directionIndex_range. exact Hb.
    + apply bearingToDirection_defined. exact Hb.
  - apply bearingToDirection_None.
  - apply directionIndex_negative.
  - intros b Hb. pose proof (directionIndex_below_north b Hb) as Hi.
    split; [lia|]. apply bearingToDirection_None. lia.
  - intros b Hb.
    assert (Hr : JSNum.round (b / 45) = 0%Z) by (apply round_eq; lra).
    unfold bearingToDirection, directionIndex. rewrite Hr.
    split; reflexivity.
Qed.

Lemma C10_index_in_bounds_witness :
  ((0 <= directionIndex 100 < 8)%Z /\
   exists l, In l directions /\ bearingToDirection 100 = Some l) /\
  ((directionIndex (- 45) < 0)%Z /\ bearingToDirection (- 45) = None) /\
  (directionIndex (- 10) = 0%Z /\ bearingToDirection (- 10) = Some "N"%string).
Proof.
  split; [|split].
  - apply (proj1 C10_index_in_bounds 100). lra.
  - apply (proj1 (proj2 (proj2 (proj2 C10_index_in_bounds))) (- 45)). lra.
  - apply (proj2 (proj2 (proj2 (proj2 C10_index_in_bounds))) (- 10)). lra.
Defined.

(** * Further properties of the bearing calculator *)

Section BearingGeometry.

Import JSNum.

Lemma atan2_zero_neg (x : R) : x < 0 -> atan2 0 x = PI.
Proof.
  intros Hx. unfold atan2.
  destruct (Rlt_dec 0 x); [lra|]. destruct (Rlt_dec x 0); [|lra].
  destruct (Rle_dec 0 0); [|lra].
  unfold Rdiv. rewrite Rmult_0_l, atan_0. lra.
Qed.

Lemma atan2_neg_zero (y : R) : y < 0 -> atan2 y 0 = - (PI / 2).
Proof.
  intros Hy. unfold atan2.
  destruct (Rlt_dec 0 0); [lra|]. destruct (Rlt_dec 0 0); [lra|].
  destruct (Rlt_dec 0 y); [lra|]. destruct (Rlt_dec y 0); [reflexivity | lra].
Qed.

(** [Math.atan2] is odd in its first argument, except on the negative
    x axis, where both signs of zero give [PI] in this model. *)
Lemma atan2_opp (y x : R) :
  ~ (y = 0 /\ x < 0) -> atan2 (- y) x = - atan2 y x.
Proof.
  intros Hax. unfold atan2.
  replace (- y / x) with (- (y / x)) by (unfold Rdiv; ring).
  rewrite atan_opp.
  destruct (Rlt_dec 0 x) as [Hx | Hx]; [reflexivity|].
  destruct (Rlt_dec x 0) as [Hx' | Hx'].
  - destruct (Rle_dec 0 y) as [Hy | Hy]; destruct (Rle_dec 0 (- y)) as [Hy' | Hy'];
      try lra; exfalso; apply Hax; split; lra.
  - destruct (Rlt_dec 0 y); destruct (Rlt_dec 0 (- y));
      destruct (Rlt_dec y 0); destruct (Rlt_dec (- y) 0); lra.
Qed.

(** The normalised bearing of an angle and of its opposite. *)
Lemma normalise_opp (d : R) :
  - 180 < d < 180 ->
  rem (- d + 360) 360 = mirrorBearing (rem (d + 360) 360).
Proof.
  intros Hd. unfold mirrorBearing.
  destruct (Rlt_dec d 0) as [Hneg | Hnneg].
  - rewrite (rem_eq (d + 360) _ 0%Z) by lra.
    rewrite (rem_eq (- d + 360) _ 1%Z) by lra.
    destruct (Req_dec_T (d + 360 - 0 * 360) 0); lra.
  - destruct (Req_dec d 0) as [-> | Hnz].
    + rewrite Ropp_0. rewrite (rem_eq (0 + 360) _ 1%Z) by lra.
      destruct (Req_dec_T (0 + 360 - 1 * 360) 0); lra.
    + rewrite (rem_eq (d + 360) _ 1%Z) by lra.
      rewrite (rem_eq (- d + 360) _ 0%Z) by lra.
      destruct (Req_dec_T (d + 360 - 1 * 360) 0); lra.
Qed.

Lemma azimuth_mirror (s e : GeoPoint) :
  azimuth (mirrorLng s) (mirrorLng e) = mirrorBearing (azimuth s e).
Proof.
  pose proof PI_RGT_0 as Hpi.
  unfold azimuth, mirrorLng; cbn [lat lng]. cbv zeta.
  replace (- lng e * PI / 180 - - lng s * PI / 180)
    with (- (lng e * PI / 180 - lng s * PI / 180)) by lra.
  rewrite sin_neg, cos_neg.
  set (dLng := lng e * PI / 180 - lng s * PI / 180).
  set (x := cos (lat s * PI / 180) * sin (lat e * PI / 180)
            - sin (lat s * PI / 180) * cos (lat e * PI / 180) * cos dLng).
  set (y := sin dLng * cos (lat e * PI / 180)).
  replace (- sin dLng * cos (lat e * PI / 180)) with (- y) by (unfold y; ring).
  destruct (Req_dec y 0) as [Hy0 | Hy0].
  - (* on the axis the two angles are the same, 0 or PI *)
    rewrite Hy0, Ropp_0.
    destruct (Rlt_dec x 0) as [Hx | Hx].
    + rewrite atan2_zero_neg by exact Hx.
      replace (PI * (180 / PI) + 360) with 540 by (field; lra).
      rewrite (rem_eq 540 _ 1%Z) by lra. unfold mirrorBearing.
      destruct (Req_dec_T (540 - 1 * 360) 0); lra.
    + assert (E : atan2 0 x = 0).
      { destruct (Req_dec x 0) as [-> | Hx0].
        - unfold atan2. destruct (Rlt_dec 0 0); lra.
        - apply atan2_zero_pos. lra. }
      rewrite E, Rmult_0_l.
      rewrite (rem_eq (0 + 360) _ 1%Z) by lra. unfold mirrorBearing.
      destruct (Req_dec_T (0 + 360 - 1 * 360) 0); lra.
  - rewrite atan2_opp by (intros [H _]; contradiction).
    replace (- atan2 y x * (180 / PI)) with (- (atan2 y x * (180 / PI))) by ring.
    apply normalise_opp.
    pose proof (degrees_of_atan2 y x) as Hd.
    pose proof (degrees_of_atan2 (- y) x) as Hd'.
    rewrite atan2_opp in Hd' by (intros [H _]; contradiction).
    lra.
Qed.

(** Along a meridian: [x] is the sine of the latitude difference and [y]
    vanishes. *)
Lemma azimuth_meridian_north (s e : GeoPoint) :
  lng s = lng e -> 0 < lat e - lat s < 180 -> azimuth s e = 0.
Proof.
  intros Hlng Hlat. pose proof PI_RGT_0 as Hpi.
  unfold azimuth. cbv zeta. rewrite Hlng.
  replace (lng e * PI / 180 - lng e * PI / 180) with 0 by ring.
  rewrite sin_0, cos_0.
  match goal with |- context [atan2 ?y ?x] =>
    replace x with (sin (lat e * PI / 180 - lat s * PI / 180))
      by (rewrite sin_minus; ring);
    replace y with 0 by ring
  end.
  assert (Hx : 0 < sin (lat e * PI / 180 - lat s * PI / 180)).
  { apply sin_gt_0.
    - apply Rmult_lt_reg_r with (180 / PI); [apply Rdiv_lt_0_compat; lra|].
      replace ((lat e * PI / 180 - lat s * PI / 180) * (180 / PI))
        with (lat e - lat s) by (field; lra). lra.
    - apply Rmult_lt_reg_r with (180 / PI); [apply Rdiv_lt_0_compat; lra|].
      replace ((lat e * PI / 180 - lat s * PI / 180) * (180 / PI))
        with (lat e - lat s) by (field; lra).
      replace (PI * (180 / PI)) with 180 by (field; lra). lra. }
  rewrite atan2_zero_pos by exact Hx.
  rewrite Rmult_0_l. rewrite (rem_eq (0 + 360) _ 1%Z) by lra. lra.
Qed.

Lemma azimuth_meridian_south (s e : GeoPoint) :
  lng s = lng e -> - 180 < lat e - lat s < 0 -> azimuth s e = 180.
Proof.
  intros Hlng Hlat. pose proof PI_RGT_0 as Hpi.
  unfold azimuth. cbv zeta. rewrite Hlng.
  replace (lng e * PI / 180 - lng e * PI / 180) with 0 by ring.
  rewrite sin_0, cos_0.
  match goal with |- context [atan2 ?y ?x] =>
    replace x with (sin (lat e * PI / 180 - lat s * PI / 180))
      by (rewrite sin_minus; ring);
    replace y with 0 by ring
  end.
  assert (Hx : sin (lat e * PI / 180 - lat s * PI / 180) < 0).
  { apply sin_lt_0_var.
    - apply Rmult_lt_reg_r with (180 / PI); [apply Rdiv_lt_0_compat; lra|].
      replace ((lat e * PI / 180 - lat s * PI / 180) * (180 / PI))
        with (lat e - lat s) by (field; lra).
      replace (- PI * (180 / PI)) with (- 180) by (field; lra). lra.
    - apply Rmult_lt_reg_r with (180 / PI); [apply Rdiv_lt_0_compat; lra|].
      replace ((lat e * PI / 180 - lat s * PI / 180) * (180 / PI))
        with (lat e - lat s) by (field; lra). lra. }
  rewrite atan2_zero_neg by exact Hx.
  replace (PI * (180 / PI) + 360) with 540 by (field; lra).
  rewrite (rem_eq 540 _ 1%Z) by lra. lra.
Qed.

(** Along the equator: [x] vanishes and [y] is the sine of the longitude
    difference. *)
Lemma azimuth_equator_east (s e : GeoPoint) :
  lat s = 0 -> lat e = 0 -> 0 < lng e - lng s < 180 -> azimuth s e = 90.
Proof.
  intros Hs He Hlng. pose proof PI_RGT_0 as Hpi.
  unfold azimuth. cbv zeta. rewrite Hs, He.
  replace (0 * PI / 180) with 0 by lra.
  rewrite sin_0, cos_0.
  set (dLng := lng e * PI / 180 - lng s * PI / 180).
  replace (1 * 0 - 0 * 1 * cos dLng) with 0 by ring.
  rewrite Rmult_1_r.
  assert (Hy : 0 < sin dLng).
  { apply sin_gt_0; unfold dLng.
    - apply Rmult_lt_reg_r with (180 / PI); [apply Rdiv_lt_0_compat; lra|].
      replace ((lng e * PI / 180 - lng s * PI / 180) * (180 / PI))
        with (lng e - lng s) by (field; lra). lra.
    - apply Rmult_lt_reg_r with (180 / PI); [apply Rdiv_lt_0_compat; lra|].
      replace ((lng e * PI / 180 - lng s * PI / 180) * (180 / PI))
        with (lng e - lng s) by (field; lra).
      replace (PI * (180 / PI)) with 180 by (field; lra). lra. }
  rewrite atan2_pos_zero by exact Hy.
  replace (PI / 2 * (180 / PI) + 360) with 450 by (field; lra).
  rewrite (rem_eq 450 _ 1%Z) by lra. lra.
Qed.

Lemma azimuth_equator_west (s e : GeoPoint) :
  lat s = 0 -> lat e = 0 -> - 180 < lng e - lng s < 0 -> azimuth s e = 270.
Proof.
  intros Hs He Hlng. pose proof PI_RGT_0 as Hpi.
  unfold azimuth. cbv zeta. rewrite Hs, He.
  replace (0 * PI / 180) with 0 by lra.
  rewrite sin_0, cos_0.
  set (dLng := lng e * PI / 180 - lng s * PI / 180).
  replace (1 * 0 - 0 * 1 * cos dLng) with 0 by ring.
  rewrite Rmult_1_r.
  assert (Hy : sin dLng < 0).
  { apply sin_lt_0_var; unfold dLng.
    - apply Rmult_lt_reg_r with (180 / PI); [apply Rdiv_lt_0_compat; lra|].
      replace ((lng e * PI / 180 - lng s * PI / 180) * (180 / PI))
        with (lng e - lng s) by (field; lra).
      replace (- PI * (180 / PI)) with (- 180) by (field; lra). lra.
    - apply Rmult_lt_reg_r with (180 / PI); [apply Rdiv_lt_0_compat; lra|].
      replace ((lng e * PI / 180 - lng s * PI / 180) * (180 / PI))
        with (lng e - lng s) by (field; lra). lra. }
  rewrite atan2_neg_zero by exact Hy.
  replace (- (PI / 2) * (180 / PI) + 360) with 270 by (field; lra).
  rewrite (rem_eq 270 _ 0%Z) by lra. lra.
Qed.

End BearingGeometry.

(** * What is rendered *)

Section Rendering.

Import JSNum.

(** The sector boundaries are half-integers, where [Math.round] itself
    changes value, so rounding the bearing first does not move it across a
    boundary. *)
Lemma round_quotient_of_round (d : R) :
  round (IZR (round d) / 45) = round (d / 45).
Proof.
  set (k := round (d / 45)).
  assert (Hk : 45 * IZR k - 22.5 <= d < 45 * IZR k + 22.5)
    by (apply round_quotient; reflexivity).
  pose proof (round_bound d) as Hn.
  apply round_quotient.
  assert (Hlo : (45 * k - 23 < round d)%Z).
  { apply lt_IZR. rewrite minus_IZR, mult_IZR. lra. }
  assert (Hhi : (round d < 45 * k + 23)%Z).
  { apply lt_IZR. rewrite plus_IZR, mult_IZR. lra. }
  assert (Hlo' : (45 * k - 22 <= round d)%Z) by lia.
  assert (Hhi' : (round d <= 45 * k + 22)%Z) by lia.
  apply IZR_le in Hlo', Hhi'.
  rewrite minus_IZR, mult_IZR in Hlo'. rewrite plus_IZR, mult_IZR in Hhi'.
  lra.
Qed.

Lemma directionIndex_of_round (d : R) :
  directionIndex (IZR (round d)) = directionIndex d.
Proof.
  unfold directionIndex. rewrite round_quotient_of_round. reflexivity.
Qed.

Lemma round_degrees_range (d : R) :
  0 <= d < 360 -> (0 <= round d <= 360)%Z.
Proof.
  intros Hd. pose proof (round_bound d) as Hn. split.
  - apply Z.lt_pred_le. apply lt_IZR. simpl. lra.
  - apply Z.lt_succ_r. apply lt_IZR. simpl. lra.
Qed.

Lemma round_degrees_360 (d : R) :
  0 <= d < 360 -> (round d = 360%Z <-> 359.5 <= d).
Proof.
  intros Hd. split.
  - intros E. pose proof (round_bound d) as Hn. rewrite E in Hn. lra.
  - intros H. apply round_eq. lra.
Qed.

End Rendering.

(** * Further properties of the presenter *)

Section PresenterRuns.

Lemma last_default_irrelevant {A : Type} (l : list A) (a b : A) :
  l <> [] -> last l a = last l b.
Proof.
  induction l as [| x [| y l'] IH]; intros Hne.
  - contradiction.
  - reflexivity.
  - change (last (y :: l') a = last (y :: l') b). apply IH. discriminate.
Qed.

Lemma compassEffect_total (props : CompassProps) (st : CompassState) :
  exists st', compassEffect props st = Normal st'.
Proof.
  destruct (compassEffect_cases props st) as [H | (d & _ & H)];
    eexists; exact H.
Qed.

(** With both fixes present the state published does not depend on the
    state the effect ran on. *)
Lemma compassEffect_forgets (fixes : GeoPoint * GeoPoint) (st1 st2 : CompassState) :
  compassEffect (bothPresent fixes) st1 = compassEffect (bothPresent fixes) st2.
Proof. rewrite !compassEffect_bothPresent. reflexivity. Qed.

Lemma compassEffect_idempotent (props : CompassProps) (st st' : CompassState) :
  compassEffect props st = Normal st' ->
  compassEffect props st' = Normal st'.
Proof.
  destruct props as [[cur|] [prev|]];
    try (intros _; apply compassEffect_fixMissing; unfold fixMissing; simpl; tauto).
  intros H.
  change {| busLocation := Some cur; previousLocation := Some prev |}
    with (bothPresent (prev, cur)) in *.
  rewrite (compassEffect_forgets _ st' st). exact H.
Qed.

Lemma runEffects_total (updates : list CompassProps) (st : CompassState) :
  exists trace,
    runEffects st updates = Normal trace /\
    List.length trace = List.length updates.
Proof.
  revert st. induction updates as [| props rest IH]; intros st.
  - exists []. split; reflexivity.
  - destruct (compassEffect_total props st) as (st' & Hst).
    destruct (IH st') as (trace & Hrun & Hlen).
    exists (st' :: trace). split.
    + simpl. rewrite Hst. simpl. rewrite Hrun. reflexivity.
    + simpl. rewrite Hlen. reflexivity.
Qed.

(** A run over two batches of updates is the run over the first followed
    by the run over the second from the state the first one left. *)
Lemma runEffects_app (us1 us2 : list CompassProps) (st : CompassState)
      (t1 t2 : list CompassState) :
  runEffects st us1 = Normal t1 ->
  runEffects (stateAfter st t1) us2 = Normal t2 ->
  runEffects st (us1 ++ us2) = Normal (t1 ++ t2).
Proof.
  revert st t1. induction us1 as [| props rest IH]; intros st t1 H1 H2.
  - simpl in H1. injection H1 as <-. exact H2.
  - simpl in H1.
    destruct (compassEffect props st) as [st' |] eqn:Hst; [|discriminate].
    simpl in H1.
    destruct (runEffects st' rest) as [t1' |] eqn:Hrest; [|discriminate].
    simpl in H1. injection H1 as <-.
    assert (Hlast : stateAfter st (st' :: t1') = stateAfter st' t1').
    { unfold stateAfter. destruct t1' as [| a l]; [reflexivity|].
      change (last (st' :: a :: l) st) with (last (a :: l) st).
      apply last_default_irrelevant; discriminate. }
    rewrite Hlast in H2.
    simpl. rewrite Hst. simpl. rewrite (IH st' t1' Hrest H2). reflexivity.
Qed.

End PresenterRuns.

Section PresenterTraces.

Lemma last_last_app_repeat {A : Type} (l : list A) (x a : A) (n : nat) :
  last (l ++ x :: repeat x n) a = x.
Proof.
  induction l as [| y l IH].
  - simpl. induction n as [| n IHn]; [reflexivity|].
    destruct n; [reflexivity | exact IHn].
  - change ((y :: l) ++ x :: repeat x n) with (y :: (l ++ x :: repeat x n)).
    destruct (l ++ x :: repeat x n) eqn:E.
    + destruct l; discriminate.
    + rewrite <- E in *. simpl. rewrite E. rewrite <- E. exact IH.
Qed.

(** Every state of a run is the starting state or a state published from
    a bearing in range. *)
Lemma runEffects_states (updates : list CompassProps) (st : CompassState) :
  exists trace,
    runEffects st updates = Normal trace /\
    List.length trace = List.length updates /\
    Forall (fun st' => st' = st \/
                       exists d, 0 <= d < 360 /\ st' = published d) trace.
Proof.
  revert st. induction updates as [| props rest IH]; intros st.
  - exists []. repeat split; constructor.
  - destruct (compassEffect_cases props st) as [Hsame | (d & Hr & Hpub)].
    + destruct (IH st) as (trace & Hrun & Hlen & Hall).
      exists (st :: trace). split; [|split].
      * simpl. rewrite Hsame. simpl. rewrite Hrun. reflexivity.
      * simpl. rewrite Hlen. reflexivity.
      * constructor; [left; reflexivity | exact Hall].
    + destruct (IH (published d)) as (trace & Hrun & Hlen & Hall).
      exists (published d :: trace). split; [|split].
      * simpl. rewrite Hpub. simpl. rewrite Hrun. reflexivity.
      * simpl. rewrite Hlen. reflexivity.
      * constructor; [right; exists d; split; [exact Hr | reflexivity]|].
        apply (Forall_impl _ (P := fun st' =>
                 st' = published d \/
                 exists d0, 0 <= d0 < 360 /\ st' = published d0)); [|exact Hall].
        intros st' [-> | H]; right; [exists d; split; [exact Hr | reflexivity] | exact H].
Qed.

(** The state left by a run that ends with a both-present update followed
    by updates that miss a fix. *)
Lemma runEffects_last_present (before after : list CompassProps)
      (fixes : GeoPoint * GeoPoint) (st : CompassState) :
  Forall fixMissing after ->
  exists trace d,
    runEffects st (before ++ bothPresent fixes :: after) = Normal trace /\
    calculateBearing (Some (fst fixes)) (Some (snd fixes)) = Normal d /\
    stateAfter st trace = published d.
Proof.
  intros Hafter.
  destruct (runEffects_total before st) as (t1 & H1 & _).
  destruct (calculateBearing_range (Some (fst fixes)) (Some (snd fixes)))
    as (d & Hd & _).
  set (t2 := published d :: repeat (published d) (List.length after)).
  assert (H2 : runEffects (stateAfter st t1) (bothPresent fixes :: after)
               = Normal t2).
  { simpl. rewrite compassEffect_bothPresent, Hd. simpl.
    rewrite (runEffects_fixMissing after (published d) Hafter). reflexivity. }
  exists (t1 ++ t2), d. split; [|split].
  - apply runEffects_app; assumption.
  - exact Hd.
  - unfold stateAfter, t2. apply last_last_app_repeat.
Qed.

End PresenterTraces.

(** * The Hero component *)

Section HeroBanner.

Import Hero.

Lemma rotates_true (autoRotate : bool) (bannerImages : list string) :
  rotates autoRotate bannerImages = true <->
  autoRotate = true /\ (1 < List.length bannerImages)%nat.
Proof.
  unfold rotates. rewrite andb_true_iff, Z.ltb_lt. intuition lia.
Qed.

Lemma nextImageIndex_mod (bannerImages : list string) (p : Z) :
  (1 < List.length bannerImages)%nat -> (0 <= p)%Z ->
  nextImageIndex bannerImages p
  = ((p + 1) mod Z.of_nat (List.length bannerImages))%Z.
Proof.
  intros Hn Hp. unfold nextImageIndex. apply Z.rem_mod_nonneg; lia.
Qed.

Lemma iter_nextImageIndex (bannerImages : list string) (ticks : nat) (p : Z) :
  (1 < List.length bannerImages)%nat ->
  (0 <= p < Z.of_nat (List.length bannerImages))%Z ->
  Nat.iter ticks (nextImageIndex bannerImages) p
  = ((p + Z.of_nat ticks) mod Z.of_nat (List.length bannerImages))%Z.
Proof.
  intros Hn Hp. induction ticks as [| k IH].
  - simpl. rewrite Z.add_0_r. symmetry. apply Z.mod_small. exact Hp.
  - rewrite Nat.iter_succ, IH.
    set (n := Z.of_nat (List.length bannerImages)) in *.
    assert (Hpos : (0 < n)%Z) by (unfold n; lia).
    rewrite nextImageIndex_mod;
      [| exact Hn | apply Z.mod_pos_bound; exact Hpos].
    fold n. rewrite Zplus_mod_idemp_l. f_equal. lia.
Qed.

Lemma indexAfter_in_range (autoRotate : bool) (bannerImages : list string)
      (ticks : nat) (p : Z) :
  (0 <= p < Z.of_nat (List.length bannerImages))%Z ->
  (0 <= indexAfter autoRotate bannerImages ticks p
   < Z.of_nat (List.length bannerImages))%Z.
Proof.
  intros Hp. unfold indexAfter.
  destruct (rotates autoRotate bannerImages) eqn:Hrot; [|exact Hp].
  apply rotates_true in Hrot. destruct Hrot as [_ Hn].
  rewrite iter_nextImageIndex by assumption.
  apply Z.mod_pos_bound. lia.
Qed.

Lemma array_get_in_range {A : Type} (arr : list A) (i : Z) :
  (0 <= i < Z.of_nat (List.length arr))%Z ->
  exists a, array_get arr i = Some a /\ In a arr.
Proof.
  intros Hi. unfold array_get.
  destruct (Z.ltb_spec i 0); [lia|].
  destruct (nth_error arr (Z.to_nat i)) as [a |] eqn:E.
  - exists a. split; [reflexivity | apply (nth_error_In _ _ E)].
  - apply nth_error_None in E. lia.
Qed.

Lemma array_get_None {A : Type} (arr : list A) (i : Z) :
  array_get arr i = None <-> (i < 0 \/ Z.of_nat (List.length arr) <= i)%Z.
Proof.
  unfold array_get. destruct (Z.ltb_spec i 0) as [Hn | Hn].
  - split; [intros _; left; exact Hn | reflexivity].
  - rewrite nth_error_None. lia.
Qed.

End HeroBanner.

Section HeroTitle.

Import Hero.

Lemma split_space_nonempty (s : string) : split_space s <> [].
Proof.
  destruct s as [| c rest]; simpl; [discriminate|].
  destruct (Ascii.eqb c " "); [discriminate|].
  destruct (split_space rest); discriminate.
Qed.

Lemma join_space_cons_char (c : ascii) (w : string) (ws : list string) :
  join_space (String c w :: ws) = String c (join_space (w :: ws)).
Proof.
  unfold join_space. destruct ws; reflexivity.
Qed.

(** Joining what was split gives the title back. *)
Lemma join_split_space (s : string) : join_space (split_space s) = s.
Proof.
  induction s as [| c rest IH]; [reflexivity|].
  simpl. destruct (Ascii.eqb_spec c " ") as [-> | Hc].
  - pose proof (split_space_nonempty rest) as Hne.
    destruct (split_space rest) as [| w ws]; [contradiction|].
    unfold join_space in *. simpl in *. rewrite IH. reflexivity.
  - pose proof (split_space_nonempty rest) as Hne.
    destruct (split_space rest) as [| w ws]; [contradiction|].
    rewrite join_space_cons_char, IH. reflexivity.
Qed.

Lemma string_app_assoc (a b c : string) :
  ((a ++ b) ++ c)%string = (a ++ (b ++ c))%string.
Proof.
  induction a as [| x a IH]; simpl; [reflexivity | rewrite IH; reflexivity].
Qed.

Lemma join_space_app (l1 l2 : list string) :
  l1 <> [] -> l2 <> [] ->
  join_space (l1 ++ l2)
  = (join_space l1 ++ " " ++ join_space l2)%string.
Proof.
  intros H1 H2. induction l1 as [| x [| y l1'] IH]; [contradiction | |].
  - destruct l2 as [| z l2']; [contradiction | reflexivity].
  - change (join_space ((x :: y :: l1') ++ l2))
      with (x ++ " " ++ join_space ((y :: l1') ++ l2))%string.
    rewrite IH by discriminate.
    change (join_space (x :: y :: l1'))
      with (x ++ " " ++ join_space (y :: l1'))%string.
    rewrite !string_app_assoc. reflexivity.
Qed.

End HeroTitle.

(** * Further verified properties *)

(** X1.  For two present points that are not identical, the bearing
    returned lies in [[0, 360)] and, read as an angle, is the direction of
    the vector [(x, y)] the formula builds: [x] is its length times the
    cosine of the bearing and [y] its length times the sine.  The
    normalisation changes the angle by a whole turn at most. *)
Theorem X1_bearing_is_polar_angle (s e : GeoPoint) :
  ~ (lat s = lat e /\ lng s = lng e) ->
  exists b,
    calculateBearing (Some s) (Some e) = Normal b /\
    0 <= b < 360 /\
    let startLat := (lat s * PI) / 180 in
    let endLat := (lat e * PI) / 180 in
    let dLng := (lng e * PI) / 180 - (lng s * PI) / 180 in
    let y := sin dLng * cos endLat in
    let x := cos startLat * sin endLat - sin startLat * cos endLat * cos dLng in
    x = sqrt (x * x + y * y) * cos (b * PI / 180) /\
    y = sqrt (x * x + y * y) * sin (b * PI / 180).
Proof.
  intros Hne. exists (azimuth s e). split; [|split].
  - apply calculateBearing_distinct. exact Hne.
  - apply azimuth_range.
  - apply azimuth_polar.
Qed.

Lemma X1_bearing_is_polar_angle_witness :
  exists b,
    calculateBearing (Some origin) (Some oneDegreeNorth) = Normal b /\
    0 <= b < 360 /\
    let startLat := (lat origin * PI) / 180 in
    let endLat := (lat oneDegreeNorth * PI) / 180 in
    let dLng := (lng oneDegreeNorth * PI) / 180 - (lng origin * PI) / 180 in
    let y := sin dLng * cos endLat in
    let x := cos startLat * sin endLat - sin startLat * cos endLat * cos dLng in
    x = sqrt (x * x + y * y) * cos (b * PI / 180) /\
    y = sqrt (x * x + y * y) * sin (b * PI / 180).
Proof.
  apply (X1_bearing_is_polar_angle origin oneDegreeNorth).
  simpl. intros [H _]. lra.
Defined.

(** X2.  Between two valid points on one meridian, at least a millionth
    of a degree apart in latitude and no more than 180 degrees less a
    millionth, the bearing is exactly 0 (label N) when the end point lies
    to the north and exactly 180 (label S) when it lies to the south. *)
Theorem X2_bearing_along_meridian (s e : GeoPoint) :
  validGeoPoint s -> validGeoPoint e ->
  lng s = lng e ->
  (resolution <= lat e - lat s <= 180 - resolution ->
   calculateBearing (Some s) (Some e) = Normal 0 /\
   bearingToDirection 0 = Some "N"%string) /\
  (resolution <= lat s - lat e <= 180 - resolution ->
   calculateBearing (Some s) (Some e) = Normal 180 /\
   bearingToDirection 180 = Some "S"%string).
Proof.
  intros _ _ Hlng. unfold resolution. split; intros Hlat; split.
  - rewrite calculateBearing_distinct by (intros [H _]; lra).
    f_equal. apply azimuth_meridian_north; [exact Hlng | lra].
  - classify_at 0%Z.
  - rewrite calculateBearing_distinct by (intros [H _]; lra).
    f_equal. apply azimuth_meridian_south; [exact Hlng | lra].
  - classify_at 4%Z.
Qed.

Lemma X2_bearing_along_meridian_witness :
  (calculateBearing (Some {| lat := 10; lng := 20 |})
                    (Some {| lat := 35; lng := 20 |}) = Normal 0 /\
   bearingToDirection 0 = Some "N"%string) /\
  (calculateBearing (Some {| lat := 35; lng := 20 |})
                    (Some {| lat := 10; lng := 20 |}) = Normal 180 /\
   bearingToDirection 180 = Some "S"%string).
Proof.
  assert (V1 : validGeoPoint {| lat := 10; lng := 20 |})
    by (unfold validGeoPoint; simpl; lra).
  assert (V2 : validGeoPoint {| lat := 35; lng := 20 |})
    by (unfold validGeoPoint; simpl; lra).
  split.
  - apply (proj1 (X2_bearing_along_meridian
                    {| lat := 10; lng := 20 |} {| lat := 35; lng := 20 |}
                    V1 V2 eq_refl)).
    unfold resolution; simpl. lra.
  - apply (proj2 (X2_bearing_along_meridian
                    {| lat := 35; lng := 20 |} {| lat := 10; lng := 20 |}
                    V2 V1 eq_refl)).
    unfold resolution; simpl. lra.
Defined.

(** X3.  Between two valid points on the equator, at least a millionth of
    a degree apart in longitude and no more than 180 degrees less a
    millionth, the bearing is exactly 90 (label E) when the end point lies
    to the east and exactly 270 (label W) when it lies to the west. *)
Theorem X3_bearing_along_equator (s e : GeoPoint) :
  validGeoPoint s -> validGeoPoint e ->
  lat s = 0 -> lat e = 0 ->
  (resolution <= lng e - lng s <= 180 - resolution ->
   calculateBearing (Some s) (Some e) = Normal 90 /\
   bearingToDirection 90 = Some "E"%string) /\
  (resolution <= lng s - lng e <= 180 - resolution ->
   calculateBearing (Some s) (Some e) = Normal 270 /\
   bearingToDirection 270 = Some "W"%string).
Proof.
  intros _ _ Hs He. unfold resolution. split; intros Hlng; split.
  - rewrite calculateBearing_distinct by (intros [_ H]; lra).
    f_equal. apply azimuth_equator_east; [exact Hs | exact He | lra].
  - classify_at 2%Z.
  - rewrite calculateBearing_distinct by (intros [_ H]; lra).
    f_equal. apply azimuth_equator_west; [exact Hs | exact He | lra].
  - classify_at 6%Z.
Qed.

Lemma X3_bearing_along_equator_witness :
  (calculateBearing (Some {| lat := 0; lng := 30 |})
                    (Some {| lat := 0; lng := 75 |}) = Normal 90 /\
   bearingToDirection 90 = Some "E"%string) /\
  (calculateBearing (Some {| lat := 0; lng := 75 |})
                    (Some {| lat := 0; lng := 30 |}) = Normal 270 /\
   bearingToDirection 270 = Some "W"%string).
Proof.
  assert (V1 : validGeoPoint {| lat := 0; lng := 30 |})
    by (unfold validGeoPoint; simpl; lra).
  assert (V2 : validGeoPoint {| lat := 0; lng := 75 |})
    by (unfold validGeoPoint; simpl; lra).
  split.
  - apply (proj1 (X3_bearing_along_equator
                    {| lat := 0; lng := 30 |} {| lat := 0; lng := 75 |}
                    V1 V2 eq_refl eq_refl)).
    unfold resolution; simpl. lra.
  - apply (proj2 (X3_bearing_along_equator
                    {| lat := 0; lng := 75 |} {| lat := 0; lng := 30 |}
                    V2 V1 eq_refl eq_refl)).
    unfold resolution; simpl. lra.
Defined.

(** X4.  Reflecting both points in the prime meridian (negating both
    longitudes) reflects the bearing in the north-south axis: a bearing
    of 0 stays 0 and any other bearing [b] becomes [360 - b].  The
    degenerate result 0 for identical points is kept as well. *)
Theorem X4_bearing_mirror (s e : GeoPoint) :
  exists b,
    calculateBearing (Some s) (Some e) = Normal b /\
    calculateBearing (Some (mirrorLng s)) (Some (mirrorLng e))
    = Normal (mirrorBearing b).
Proof.
  assert (H0 : mirrorBearing 0 = 0).
  { unfold mirrorBearing. destruct (Req_dec_T 0 0); lra. }
  destruct (Req_dec (lat s) (lat e)) as [E1 | E1];
    [destruct (Req_dec (lng s) (lng e)) as [E2 | E2]|].
  - exists 0. split.
    + apply calculateBearing_same; assumption.
    + rewrite H0. apply calculateBearing_same; simpl; [exact E1 | lra].
  - exists (azimuth s e). split.
    + apply calculateBearing_distinct. intros [_ H]. contradiction.
    + rewrite <- azimuth_mirror. apply calculateBearing_distinct.
      simpl. intros [_ H]. lra.
  - exists (azimuth s e). split.
    + apply calculateBearing_distinct. intros [H _]. contradiction.
    + rewrite <- azimuth_mirror. apply calculateBearing_distinct.
      simpl. intros [H _]. contradiction.
Qed.

(** X5.  The label shown agrees with the whole-degree figure shown:
    classifying the rounded bearing gives the same label as classifying
    the bearing, for every number; so in every reachable state the label
    is the classification of the figure printed under it. *)
Theorem X5_label_follows_shown_degrees :
  (forall d : R,
     bearingToDirection (IZR (JSNum.round d)) = bearingToDirection d) /\
  (forall st : CompassState,
     reachable st ->
     direction st = bearingToDirection (IZR (shownDegrees st))).
Proof.
  assert (H : forall d : R,
             bearingToDirection (IZR (JSNum.round d)) = bearingToDirection d).
  { intros d. unfold bearingToDirection. cbv zeta.
    rewrite directionIndex_of_round. reflexivity. }
  split; [exact H|].
  intros st Hreach. unfold shownDegrees. rewrite H.
  apply (reachable_invariant st Hreach).
Qed.

Lemma X5_label_follows_shown_degrees_witness :
  Some "E"%string
  = bearingToDirection
      (IZR (shownDegrees {| direction := Some "E"%string; degrees := 90 |})).
Proof.
  apply (proj2 X5_label_follows_shown_degrees
           {| direction := Some "E"%string; degrees := 90 |}
           reachable_due_east).
Defined.

(** X6.  In every reachable state the needle angle lies in [[0, 360)] and
    the figure shown lies in 0..360.  The figure 360 is shown exactly when
    the angle is 359.5 or more, and the label is then N. *)
Theorem X6_shown_degrees_range (st : CompassState) :
  reachable st ->
  0 <= degrees st < 360 /\
  (0 <= shownDegrees st <= 360)%Z /\
  (shownDegrees st = 360%Z <-> 359.5 <= degrees st) /\
  (shownDegrees st = 360%Z -> direction st = Some "N"%string).
Proof.
  intros Hreach.
  destruct (reachable_invariant st Hreach) as (Hc & Hr & _).
  split; [exact Hr|]. split; [|split].
  - apply round_degrees_range. exact Hr.
  - apply round_degrees_360. exact Hr.
  - intros H360. apply round_degrees_360 in H360; [|exact Hr].
    rewrite Hc. unfold bearingToDirection, directionIndex.
    rewrite (round_eq _ 8%Z) by lra. reflexivity.
Qed.

Lemma X6_shown_degrees_range_witness :
  reachable {| direction := Some "E"%string; degrees := 90 |} /\
  0 <= 90 < 360 /\
  (0 <= shownDegrees {| direction := Some "E"%string; degrees := 90 |}
   <= 360)%Z.
Proof.
  pose proof (X6_shown_degrees_range
                {| direction := Some "E"%string; degrees := 90 |}
                reachable_due_east) as (H1 & H2 & _).
  split; [apply reachable_due_east|]. split; [exact H1 | exact H2].
Defined.

(** X7.  The effect is idempotent: run again on the state it produced,
    with the same props, it produces that state again.  With both fixes
    present its result does not depend on the state it ran on. *)
Theorem X7_effect_idempotent :
  (forall (props : CompassProps) (st st' : CompassState),
     compassEffect props st = Normal st' ->
     compassEffect props st' = Normal st') /\
  (forall (fixes : GeoPoint * GeoPoint) (st1 st2 : CompassState),
     compassEffect (bothPresent fixes) st1
     = compassEffect (bothPresent fixes) st2).
Proof.
  split.
  - apply compassEffect_idempotent.
  - apply compassEffect_forgets.
Qed.

Lemma X7_effect_idempotent_witness :
  compassEffect (bothPresent (origin, oneDegreeEast)) initialState
  = Normal {| direction := Some "E"%string; degrees := 90 |} /\
  compassEffect (bothPresent (origin, oneDegreeEast))
                {| direction := Some "E"%string; degrees := 90 |}
  = Normal {| direction := Some "E"%string; degrees := 90 |}.
Proof.
  split; [apply compassEffect_due_east|].
  apply (proj1 X7_effect_idempotent
           (bothPresent (origin, oneDegreeEast)) initialState
           {| direction := Some "E"%string; degrees := 90 |}
           compassEffect_due_east).
Defined.

(** X8.  The last update with both fixes present decides the state: after
    any updates, then a both-present update, then any number of updates
    that miss a fix, the state is the one published from that pair's
    bearing, whatever came before. *)
Theorem X8_last_present_update_wins
        (before after : list CompassProps) (fixes : GeoPoint * GeoPoint)
        (st : CompassState) :
  Forall (fun props => busLocation props = None \/
                       previousLocation props = None) after ->
  exists trace d,
    runEffects st (before ++ bothPresent fixes :: after) = Normal trace /\
    calculateBearing (Some (fst fixes)) (Some (snd fixes)) = Normal d /\
    stateAfter st trace
    = {| direction := bearingToDirection d; degrees := d |}.
Proof.
  intros Hafter. apply runEffects_last_present. exact Hafter.
Qed.

Lemma X8_last_present_update_wins_witness :
  exists trace d,
    runEffects initialState
      ([bothPresent (origin, oneDegreeNorth)]
       ++ bothPresent (origin, oneDegreeEast)
       :: [ {| busLocation := None; previousLocation := Some origin |} ])
    = Normal trace /\
    calculateBearing (Some (fst (origin, oneDegreeEast)))
                     (Some (snd (origin, oneDegreeEast))) = Normal d /\
    stateAfter initialState trace
    = {| direction := bearingToDirection d; degrees := d |}.
Proof.
  apply (X8_last_present_update_wins
           [bothPresent (origin, oneDegreeNorth)]
           [ {| busLocation := None; previousLocation := Some origin |} ]
           (origin, oneDegreeEast) initialState).
  constructor; [left; reflexivity | constructor].
Defined.

(** X9.  A run of the effect over any sequence of updates, from any state,
    never throws and yields one state per update; each of these is the
    starting state or a state published from a bearing in [[0, 360)]. *)
Theorem X9_runs_never_throw (updates : list CompassProps) (st : CompassState) :
  exists trace,
    runEffects st updates = Normal trace /\
    List.length trace = List.length updates /\
    Forall (fun st' =>
              st' = st \/
              exists d, 0 <= d < 360 /\
                        st' = {| direction := bearingToDirection d;
                                 degrees := d |})
           trace.
Proof. apply runEffects_states. Qed.

(** X10.  While the banner rotates (auto-rotation on and more than one
    image), an index that starts inside the array is, after [k] ticks,
    the start plus [k] modulo the number of images: it never leaves the
    array, and after as many ticks as there are images it is back where
    it started. *)
Theorem X10_banner_index_cycles
        (autoRotate : bool) (bannerImages : list string) (p : Z) :
  Hero.rotates autoRotate bannerImages = true ->
  (0 <= p < Z.of_nat (List.length bannerImages))%Z ->
  (forall k : nat,
     Hero.indexAfter autoRotate bannerImages k p
     = ((p + Z.of_nat k) mod Z.of_nat (List.length bannerImages))%Z) /\
  (forall k : nat,
     (0 <= Hero.indexAfter autoRotate bannerImages k p
      < Z.of_nat (List.length bannerImages))%Z) /\
  Hero.indexAfter autoRotate bannerImages (List.length bannerImages) p = p.
Proof.
  intros Hrot Hp.
  assert (Hn : (1 < List.length bannerImages)%nat)
    by (apply rotates_true in Hrot; tauto).
  assert (Hk : forall k : nat,
             Hero.indexAfter autoRotate bannerImages k p
             = ((p + Z.of_nat k) mod Z.of_nat (List.length bannerImages))%Z).
  { intros k. unfold Hero.indexAfter. rewrite Hrot.
    apply iter_nextImageIndex; assumption. }
  split; [exact Hk|]. split.
  - intros k. apply indexAfter_in_range. exact Hp.
  - rewrite Hk.
    rewrite <- (Z.mul_1_l (Z.of_nat (List.length bannerImages))) at 1.
    rewrite Z.mod_add by lia. apply Z.mod_small. exact Hp.
Qed.

Lemma X10_banner_index_cycles_witness :
  Hero.indexAfter true ["a.png"; "b.png"; "c.png"]%string 3 1 = 1%Z /\
  Hero.indexAfter true ["a.png"; "b.png"; "c.png"]%string 2 1 = 0%Z.
Proof.
  assert (H : (0 <= 1 < Z.of_nat
                 (List.length ["a.png"; "b.png"; "c.png"]%string))%Z)
    by (simpl; lia).
  pose proof (X10_banner_index_cycles
                true ["a.png"; "b.png"; "c.png"]%string 1 eq_refl H)
    as (Hk & _ & Hcycle).
  split; [exact Hcycle | rewrite Hk; reflexivity].
Defined.

(** X11.  The banner shown is always defined when the index starts inside
    a non-empty image array: after any number of ticks, rotating or not,
    it is one of the images.  With no images it is the logo URL, or the
    placeholder when the logo URL is empty, and never the empty string.
    It is undefined exactly when there are images and the index lies
    outside them. *)
Theorem X11_current_banner_defined :
  (forall (autoRotate : bool) (bannerImages : list string) (p : Z)
          (logoUrl : string) (k : nat),
     (0 <= p < Z.of_nat (List.length bannerImages))%Z ->
     exists img,
       In img bannerImages /\
       Hero.currentBanner bannerImages
         (Hero.indexAfter autoRotate bannerImages k p) logoUrl = Some img) /\
  (forall (p : Z) (logoUrl : string),
     exists url,
       Hero.currentBanner [] p logoUrl = Some url /\
       url <> EmptyString /\
       (logoUrl <> EmptyString -> url = logoUrl) /\
       (logoUrl = EmptyString -> url = "/placeholder.svg"%string)) /\
  (forall (bannerImages : list string) (p : Z) (logoUrl : string),
     Hero.currentBanner bannerImages p logoUrl = None <->
     bannerImages <> [] /\
     (p < 0 \/ Z.of_nat (List.length bannerImages) <= p)%Z).
Proof.
  split; [|split].
  - intros autoRotate bannerImages p logoUrl k Hp.
    pose proof (indexAfter_in_range autoRotate bannerImages k p Hp) as Hi.
    destruct (array_get_in_range bannerImages _ Hi) as (img & Hget & Hin).
    exists img. split; [exact Hin|].
    unfold Hero.currentBanner.
    destruct (Nat.eqb_spec (List.length bannerImages) 0) as [E | E]; [lia|].
    exact Hget.
  - intros p logoUrl. unfold Hero.currentBanner. simpl.
    exists (Hero.orElse logoUrl "/placeholder.svg"). split; [reflexivity|].
    destruct logoUrl as [| c rest]; simpl.
    + split; [discriminate|]. split; [intros H; contradiction | reflexivity].
    + split; [discriminate|]. split; [reflexivity | discriminate].
  - intros bannerImages p logoUrl. unfold Hero.currentBanner.
    destruct (Nat.eqb_spec (List.length bannerImages) 0) as [E | E].
    + split; [discriminate|]. intros [Hne _].
      destruct bannerImages; [contradiction | discriminate].
    + rewrite array_get_None. split.
      * intros H. split; [|exact H]. intros ->. apply E. reflexivity.
      * intros [_ H]. exact H.
Qed.

Lemma X11_current_banner_defined_witness :
  exists img,
    In img ["a.png"; "b.png"]%string /\
    Hero.currentBanner ["a.png"; "b.png"]%string
      (Hero.indexAfter true ["a.png"; "b.png"]%string 5 0) EmptyString
    = Some img.
Proof.
  apply (proj1 X11_current_banner_defined
           true ["a.png"; "b.png"]%string 0%Z EmptyString 5%nat).
  simpl. lia.
Defined.

(** X12.  Splitting the hero title at spaces and joining with spaces gives
    the title back.  The two spans of the headline lose and repeat
    nothing: a title of at most two words is all in the first span and
    the second is empty; a longer title is the first span, one space, and
    the second span. *)
Theorem X12_title_spans (heroTitle : string) :
  Hero.join_space (Hero.split_space heroTitle) = heroTitle /\
  ((List.length (Hero.split_space heroTitle) <= 2)%nat ->
   Hero.titleLead heroTitle = heroTitle /\
   Hero.titleRest heroTitle = EmptyString) /\
  ((2 < List.length (Hero.split_space heroTitle))%nat ->
   (Hero.titleLead heroTitle ++ " " ++ Hero.titleRest heroTitle)%string
   = heroTitle).
Proof.
  pose proof (join_split_space heroTitle) as Hjs.
  split; [exact Hjs|]. unfold Hero.titleLead, Hero.titleRest. split.
  - intros Hlen. rewrite firstn_all2 by exact Hlen.
    rewrite skipn_all2 by exact Hlen. split; [exact Hjs | reflexivity].
  - intros Hlen.
    rewrite <- join_space_app.
    + rewrite firstn_skipn. exact Hjs.
    + intros E. apply (f_equal (@List.length string)) in E.
      rewrite length_firstn in E.
      change (List.length (@nil string)) with 0%nat in E. lia.
    + intros E. apply (f_equal (@List.length string)) in E.
      rewrite length_skipn in E.
      change (List.length (@nil string)) with 0%nat in E. lia.
Qed.

Lemma X12_title_spans_witness :
  (Hero.titleLead "Royal Academy" = "Royal Academy"%string /\
   Hero.titleRest "Royal Academy" = EmptyString) /\
  (Hero.titleLead "Royal Academy of Arts" ++ " "
   ++ Hero.titleRest "Royal Academy of Arts")%string
  = "Royal Academy of Arts"%string.
Proof.
  split.
  - apply (proj1 (proj2 (X12_title_spans "Royal Academy"))).
    vm_compute. lia.
  - apply (proj2 (proj2 (X12_title_spans "Royal Academy of Arts"))).
    vm_compute. lia.
Defined.
